(** * Option store and default initializer of the Notes server

    Shallow embedding of [src/services/options.ts] (the option store) and
    [src/services/options_init.ts] (the default initializer), followed by
    the properties of the specification that concern them.

    JavaScript strings are [string]s whose characters stand for code units
    in the range 0..255.  Option values are typed [string] by the source
    ([OptionRow.value], [OptionMap = Record<OptionNames, string>]), and
    option names range over [OptionNames], which contains no property name
    of [Object.prototype]; the operator [name in optionsMap] is therefore
    the own-property test on the snapshot. *)

From Stdlib Require Import ZArith Ascii String List Floats.SpecFloat.
From Stdlib Require Import Decimal DecimalString DecimalPos.
From stdpp Require Import gmap strings list fin_maps.

Local Open Scope string_scope.

(** ** Exceptions, results and the store monad *)

(** [throw new Error(message)]: every exception of the two files is a plain
    [Error] carrying a message. *)
Inductive JsError : Type :=
| Error (message : string).

Definition Result (A : Type) : Type := (JsError + A)%type.

(** The option entity.  The constructor call of the source passes [name],
    [value] and [isSynced]; [lastModified] is the timestamp of the data
    model of the specification. *)
Module BOption.
Record t : Type := mk {
  name : string;
  value : string;
  isSynced : bool;
  lastModified : nat
}.
End BOption.

#[global] Instance BOption_eq_dec : EqDecision BOption.t.
Proof. solve_decision. Defined.

(** [becca]: the in-memory entity registry.  [options] lists the live
    entities in the order [Object.values(becca.options)] enumerates them
    (creation order). *)
Record Becca : Type := mkBecca {
  loaded : bool;
  options : list BOption.t
}.

(** The process-wide state the two files act on: the registry, the rows of
    the persistent table [options], the clock read by the persistence
    layer, and the lines written by [log.info]. *)
Record World : Type := mkWorld {
  becca : Becca;
  sql_options : list BOption.t;
  utcNow : nat;
  log : list string
}.

Definition M (A : Type) : Type := World -> Result A * World.

Definition ret {A : Type} (a : A) : M A := fun w => (inr a, w).

Definition throw {A : Type} (e : JsError) : M A := fun w => (inl e, w).

Definition bind {A B : Type} (m : M A) (k : A -> M B) : M B :=
  fun w =>
    match m w with
    | (inl e, w') => (inl e, w')
    | (inr a, w') => k a w'
    end.

Declare Scope js_scope.
Delimit Scope js_scope with js.
Notation "x <- c1 ;; c2" := (bind c1 (fun x => c2))
  (at level 100, c1 at next level, right associativity) : js_scope.
Notation "c1 ;; c2" := (bind c1 (fun _ => c2))
  (at level 100, right associativity) : js_scope.
Local Open Scope js_scope.

(** [for (const x of xs) body(x)]. *)
Fixpoint forOf {A : Type} (xs : list A) (body : A -> M unit) : M unit :=
  match xs with
  | [] => ret tt
  | x :: xs' => body x ;; forOf xs' body
  end.

Definition execM {A : Type} (m : M A) (w : World) : World := snd (m w).
Definition evalM {A : Type} (m : M A) (w : World) : Result A := fst (m w).

(** ** Collaborators of the option store *)

(** Position of the most recently created entity or row called [n]. *)
Fixpoint lastIndexOf (n : string) (l : list BOption.t) : option nat :=
  match l with
  | [] => None
  | o :: l' =>
      match lastIndexOf n l' with
      | Some i => Some (S i)
      | None => if decide (BOption.name o = n) then Some 0 else None
      end
  end.

Definition lookupByName (n : string) (l : list BOption.t)
  : option (nat * BOption.t) :=
  match lastIndexOf n l with
  | Some i => match l !! i with
              | Some o => Some (i, o)
              | None => None
              end
  | None => None
  end.

(** Modelled from the spec: [becca.getOption(name)], the registry lookup of
    the entity framework, which is not part of the sources.  It yields the
    live entity called [name] (its position in the registry, which stands
    for the object reference, and its current fields), or nothing.  The
    specification leaves reads under duplicate names open; the most
    recently created entity is taken, which is the choice under which
    [createOption] followed by [getOption] reads back the created value. *)
Definition becca_getOption (name : string) : M (option (nat * BOption.t)) :=
  fun w => (inr (lookupByName name (options (becca w))), w).

(** Modelled from the spec: [sql.getRow("SELECT * FROM options WHERE name = ?")],
    the persistence layer, which is not part of the sources.  Same
    convention as [becca_getOption] on the rows of the table. *)
Definition sql_getRow_options (name : string) : M (option BOption.t) :=
  fun w => (inr (snd <$> lookupByName name (sql_options w)), w).

Definition becca_loaded : M bool := fun w => (inr (loaded (becca w)), w).

(** Modelled from the spec: the durable write of one entity.  The row of
    that name is rewritten; when the table has no such row it is added. *)
Definition sql_write (o : BOption.t) (rows : list BOption.t) : list BOption.t :=
  match lastIndexOf (BOption.name o) rows with
  | Some i => <[i := o]> rows
  | None => rows ++ [o]
  end.

(** Modelled from the spec: [new BOption({name, value, isSynced}).save()],
    the entity class, which is not part of the sources.  A new entity joins
    the live set and a new record is persisted synchronously, stamped with
    the current time; nothing is looked up, so a second entity of the same
    name gives two logical values for that name. *)
Definition BOption_new_save (name value : string) (isSynced : bool) : M unit :=
  fun w =>
    let o := BOption.mk name value isSynced (utcNow w) in
    (inr tt,
     {| becca := {| loaded := loaded (becca w);
                    options := options (becca w) ++ [o] |};
        sql_options := sql_options w ++ [o];
        utcNow := S (utcNow w);
        log := log w |}).

(** Modelled from the spec: [option.value = value; option.save()] on a live
    entity: the entity is mutated in place (every holder of the reference
    sees the new value), [lastModified] is bumped and the record is
    persisted immediately.  [name] and [isSynced] never change. *)
Definition BOption_setValue_save (ref : nat * BOption.t) (value : string) : M unit :=
  fun w =>
    let o := BOption.mk (BOption.name (snd ref)) value
                        (BOption.isSynced (snd ref)) (utcNow w) in
    (inr tt,
     {| becca := {| loaded := loaded (becca w);
                    options := <[fst ref := o]> (options (becca w)) |};
        sql_options := sql_write o (sql_options w);
        utcNow := S (utcNow w);
        log := log w |}).

Definition log_info (line : string) : M unit :=
  fun w =>
    (inr tt,
     {| becca := becca w; sql_options := sql_options w;
        utcNow := utcNow w; log := log w ++ [line] |}).

(** ** JavaScript built-ins used by the two files *)

(** A JavaScript [number] is an IEEE 754 binary64 value. *)
Definition Number : Type := spec_float.

Definition NaN : Number := S754_nan.

Definition isNaN (x : Number) : bool :=
  match x with
  | S754_nan => true
  | _ => false
  end.

(** The number nearest to an integer (round to nearest, ties to even);
    [negZero] gives the sign of a zero result. *)
Definition number_of_Z (z : Z) (negZero : bool) : Number :=
  binary_normalize 53 1024 z 0 negZero.

Definition code (c : ascii) : nat := nat_of_ascii c.

(** [WhiteSpace] and [LineTerminator] code units below 256: TAB, LF, VT,
    FF, CR, SP and NBSP. *)
Definition isWhiteSpace (c : ascii) : bool :=
  let n := code c in
  (n =? 9)%nat || (n =? 10)%nat || (n =? 11)%nat || (n =? 12)%nat
  || (n =? 13)%nat || (n =? 32)%nat || (n =? 160)%nat.

Fixpoint trimStart (s : string) : string :=
  match s with
  | String c s' => if isWhiteSpace c then trimStart s' else s
  | EmptyString => EmptyString
  end.

(** Value of a code unit as a digit: [0-9], [a-z] and [A-Z]. *)
Definition digitValue (c : ascii) : option Z :=
  let n := code c in
  if (48 <=? n)%nat && (n <=? 57)%nat then Some (Z.of_nat n - 48)%Z
  else if (97 <=? n)%nat && (n <=? 122)%nat then Some (Z.of_nat n - 87)%Z
  else if (65 <=? n)%nat && (n <=? 90)%nat then Some (Z.of_nat n - 55)%Z
  else None.

Definition radixDigit (R : Z) (c : ascii) : option Z :=
  match digitValue c with
  | Some d => if (d <? R)%Z then Some d else None
  | None => None
  end.

(** The digits of the longest prefix of [s] made of radix-[R] digits. *)
Fixpoint leadingDigits (R : Z) (s : string) : list Z :=
  match s with
  | String c s' =>
      match radixDigit R c with
      | Some d => d :: leadingDigits R s'
      | None => []
      end
  | EmptyString => []
  end.

Definition mathInt (R : Z) (ds : list Z) : Z :=
  fold_left (fun acc d => (acc * R + d)%Z) ds 0%Z.

(** Sign and remainder after an optional leading [+] or [-]. *)
Definition splitSign (s : string) : Z * string :=
  match s with
  | String c r =>
      if Ascii.eqb c "-" then ((-1)%Z, r)
      else if Ascii.eqb c "+" then (1%Z, r)
      else (1%Z, s)
  | EmptyString => (1%Z, s)
  end.

(** Radix and remainder when no radix argument is given: a leading [0x] or
    [0X] selects 16 and is removed, otherwise the radix is 10. *)
Definition splitRadix (s : string) : Z * string :=
  match s with
  | String c0 (String c1 r) =>
      if Ascii.eqb c0 "0" && (Ascii.eqb c1 "x" || Ascii.eqb c1 "X")
      then (16%Z, r)
      else (10%Z, s)
  | _ => (10%Z, s)
  end.

(** [parseInt(string)] with one argument (ECMAScript, parseInt, steps 1-16). *)
Definition parseInt (string : string) : Number :=
  let '(sign, unsigned) := splitSign (trimStart string) in
  let '(R, body) := splitRadix unsigned in
  match leadingDigits R body with
  | [] => NaN
  | digits => number_of_Z (sign * mathInt R digits) (sign =? -1)%Z
  end.

(** [c.toUpperCase()] on a string of one code unit below 256, where the
    result consists of code units below 256: the letters a-z and the
    letters U+00E0..U+00FE (U+00F7, the division sign, apart) move down by
    32, U+00DF (sharp s) becomes [SS], and every other code unit stays.
    The two code units left, U+00B5 (micro sign) and U+00FF, have their
    upper-case forms U+039C and U+0178 above 255: there the result is no
    string of this development. *)
Definition toUpperCase (c : ascii) : option string :=
  let n := code c in
  if (97 <=? n)%nat && (n <=? 122)%nat then
    Some (String (ascii_of_nat (n - 32)) EmptyString)
  else if (n =? 223)%nat then Some "SS"
  else if (224 <=? n)%nat && (n <=? 254)%nat && negb (n =? 247)%nat then
    Some (String (ascii_of_nat (n - 32)) EmptyString)
  else if (n =? 181)%nat || (n =? 255)%nat then None
  else Some (String c EmptyString).

Definition dquote : string := String (ascii_of_nat 34) EmptyString.
Definition backslash : string := String (ascii_of_nat 92) EmptyString.

Definition hexDigit (n : nat) : ascii :=
  if (n <? 10)%nat then ascii_of_nat (48 + n) else ascii_of_nat (87 + n).

(** [QuoteJSONString] on one code unit below 256. *)
Definition quoteJSONChar (c : ascii) : string :=
  let n := code c in
  if (n =? 34)%nat then backslash +:+ dquote
  else if (n =? 92)%nat then backslash +:+ backslash
  else if (n =? 8)%nat then backslash +:+ "b"
  else if (n =? 9)%nat then backslash +:+ "t"
  else if (n =? 10)%nat then backslash +:+ "n"
  else if (n =? 12)%nat then backslash +:+ "f"
  else if (n =? 13)%nat then backslash +:+ "r"
  else if (n <? 32)%nat then
    backslash +:+ "u00" +:+ String (hexDigit (n / 16)) (String (hexDigit (n mod 16)) "")
  else String c "".

Fixpoint quoteJSONBody (s : string) : string :=
  match s with
  | String c s' => quoteJSONChar c +:+ quoteJSONBody s'
  | EmptyString => EmptyString
  end.

Definition quoteJSONString (s : string) : string :=
  dquote +:+ quoteJSONBody s +:+ dquote.

(** The JSON values the two files serialize. *)
#[warning="-register-all"] Inductive JSON : Type :=
| JNull
| JBool (b : bool)
| JString (s : string)
| JArray (elements : list JSON)
| JObject (members : list (string * JSON)).

Fixpoint joinComma (parts : list string) : string :=
  match parts with
  | [] => ""
  | [p] => p
  | p :: ps => p +:+ "," +:+ joinComma ps
  end.

(** [JSON.stringify(value)] without indentation. *)
Fixpoint JSON_stringify (v : JSON) : string :=
  match v with
  | JNull => "null"
  | JBool true => "true"
  | JBool false => "false"
  | JString s => quoteJSONString s
  | JArray elements => "[" +:+ joinComma (List.map JSON_stringify elements) +:+ "]"
  | JObject members =>
      "{" +:+ joinComma (List.map (fun m => quoteJSONString (fst m) +:+ ":"
                                            +:+ JSON_stringify (snd m)) members)
      +:+ "}"
  end.

(** [!!s] and [s || d] for a possibly undefined string. *)
Definition truthy (s : option string) : bool :=
  match s with
  | Some EmptyString => false
  | Some _ => true
  | None => false
  end.

Definition orElse (s : option string) (d : string) : string :=
  match s with
  | Some EmptyString => d
  | Some s' => s'
  | None => d
  end.

(** ** The option store: [src/services/options.ts] *)

Abbreviation OptionMap := (gmap string string).

(** [typeof val !== "string"] never holds: [val] is typed [string]. *)
Definition typeof_string (val : string) : bool := true.

(** [array.includes(x)] on strings. *)
Definition includes (array : list string) (x : string) : bool :=
  existsb (String.eqb x) array.

Definition getOptionOrNull (name : string) : M (option string) :=
  isLoaded <- becca_loaded ;;
  option <- (if isLoaded
             then (r <- becca_getOption name ;; ret (snd <$> r))
             else
               (* e.g. in initial sync becca is not loaded *)
               sql_getRow_options name) ;;
  ret (match option with
       | Some o => Some (BOption.value o)
       | None => None
       end).

Definition getOption (name : string) : M string :=
  val <- getOptionOrNull name ;;
  match val with
  | None => throw (Error ("Option '" +:+ name +:+ "' doesn't exist"))
  | Some val => ret val
  end.

Definition getOptionInt (name : string) (defaultValue : option Number) : M Number :=
  val <- getOption name ;;
  let intVal := parseInt val in
  if isNaN intVal then
    match defaultValue with
    | None =>
        throw (Error ("Could not parse '" +:+ val +:+ "' into integer for option '"
                      +:+ name +:+ "'"))
    | Some defaultValue => ret defaultValue
    end
  else ret intVal.

Definition getOptionBool (name : string) : M bool :=
  val <- getOption name ;;
  if negb (typeof_string val) || negb (includes ["true"; "false"] val) then
    throw (Error ("Could not parse '" +:+ val +:+ "' into boolean for option '"
                  +:+ name +:+ "'"))
  else ret (String.eqb val "true").

Definition createOption (name value : string) (isSynced : bool) : M unit :=
  BOption_new_save name value isSynced.

Definition setOption (name value : string) : M unit :=
  option <- becca_getOption name ;;
  match option with
  | Some option => BOption_setValue_save option value
  | None => createOption name value false
  end.

Definition getOptions : M (list BOption.t) :=
  fun w => (inr (options (becca w)), w).

Definition getOptionMap : M OptionMap :=
  all <- getOptions ;;
  ret (foldl (fun (map : OptionMap) option =>
                <[BOption.name option := BOption.value option]> map)
             ∅ all).

(** ** The default initializer: [src/services/options_init.ts] *)

Inductive DefaultValue : Type :=
| Literal (value : string)
| Function (value : OptionMap -> string).

Module DefaultOption.
Record t : Type := mk {
  name : string;
  value : DefaultValue;
  isSynced : bool
}.
End DefaultOption.

(** [process.platform] and the two environment variables read at startup. *)
Record Process : Type := mkProcess {
  platform : string;
  TRILIUM_START_NOTE_ID : option string;
  TRILIUM_SAFE_MODE : option string
}.

(** Additional options to be initialized for a new database. *)
Record NotSyncedOpts : Type := mkNotSyncedOpts {
  syncServerHost : option string;
  syncProxy : option string
}.

(** An entry of [keyboardActions.getDefaultKeyboardActions()]: separators
    have no [actionName]. *)
Record KeyboardShortcut : Type := mkKeyboardShortcut {
  actionName : option string;
  defaultShortcuts : list string
}.

Definition literalOption (name value : string) (isSynced : bool) : DefaultOption.t :=
  DefaultOption.mk name (Literal value) isSynced.

Definition codeBlockThemeDefault (optionsMap : OptionMap) : string :=
  if decide (optionsMap !! "theme" = Some "light")
  then "default:stackoverflow-light"
  else "default:stackoverflow-dark".

(** The three values below that contain double quotes are written as the
    serialization of their elements. *)
Definition codeNotesMimeTypesDefault : string :=
  JSON_stringify (JArray [
    JString "text/x-csrc"; JString "text/x-c++src"; JString "text/x-csharp";
    JString "text/css"; JString "text/x-go"; JString "text/x-groovy";
    JString "text/x-haskell"; JString "text/html"; JString "message/http";
    JString "text/x-java"; JString "application/javascript;env=frontend";
    JString "application/javascript;env=backend"; JString "application/json";
    JString "text/x-kotlin"; JString "text/x-markdown"; JString "text/x-perl";
    JString "text/x-php"; JString "text/x-python"; JString "text/x-ruby"; JNull;
    JString "text/x-sql"; JString "text/x-sqlite;schema=trilium";
    JString "text/x-swift"; JString "text/xml"; JString "text/x-yaml";
    JString "text/x-sh"]).

Definition highlightsListDefault : string :=
  JSON_stringify (JArray (List.map JString
    ["bold"; "italic"; "underline"; "color"; "bgColor"])).

Definition allowedHtmlTagsDefault : string :=
  JSON_stringify (JArray (List.map JString [
    "h1"; "h2"; "h3"; "h4"; "h5"; "h6"; "blockquote"; "p"; "a"; "ul"; "ol";
    "li"; "b"; "i"; "strong"; "em"; "strike"; "s"; "del"; "abbr"; "code"; "hr"; "br"; "div";
    "table"; "thead"; "caption"; "tbody"; "tfoot"; "tr"; "th"; "td"; "pre"; "section"; "img";
    "figure"; "figcaption"; "span"; "label"; "input"; "details"; "summary"; "address"; "aside"; "footer";
    "header"; "hgroup"; "main"; "nav"; "dl"; "dt"; "menu"; "bdi"; "bdo"; "dfn"; "kbd"; "mark"; "q"; "time";
    "var"; "wbr"; "area"; "map"; "track"; "video"; "audio"; "picture"; "del"; "ins";
    "en-media";
    "acronym"; "article"; "big"; "button"; "cite"; "col"; "colgroup"; "data"; "dd";
    "fieldset"; "form"; "legend"; "meter"; "noscript"; "option"; "progress"; "rp";
    "samp"; "small"; "sub"; "sup"; "template"; "textarea"; "tt"])).

Section Startup.

Variable process : Process.

(** [keyboardActions.getDefaultKeyboardActions()], a collaborator that is
    not part of the sources. *)
Variable defaultKeyboardActions : list KeyboardShortcut.

(** [appInfo.dbVersion.toString()] and the rendering of the clock by
    [dateUtils.utcNowDateTime()], collaborators that are not part of the
    sources. *)
Variable dbVersion : string.
Variable utcNowDateTime : nat -> string.

Definition dateUtils_utcNowDateTime : M string :=
  fun w => (inr (utcNowDateTime (utcNow w)), w).

(** Initializes the default options for new databases only. *)
Definition initNotSyncedOptions (initialized : bool) (opts : NotSyncedOpts) : M unit :=
  createOption "openNoteContexts"
    (JSON_stringify (JArray [JObject [("notePath", JString "root");
                                      ("active", JBool true)]])) false ;;
  (now <- dateUtils_utcNowDateTime ;; createOption "lastDailyBackupDate" now false) ;;
  (now <- dateUtils_utcNowDateTime ;; createOption "lastWeeklyBackupDate" now false) ;;
  (now <- dateUtils_utcNowDateTime ;; createOption "lastMonthlyBackupDate" now false) ;;
  createOption "dbVersion" dbVersion false ;;
  createOption "initialized" (if initialized then "true" else "false") false ;;
  createOption "lastSyncedPull" "0" false ;;
  createOption "lastSyncedPush" "0" false ;;
  createOption "theme" "next" false ;;
  createOption "syncServerHost" (orElse (syncServerHost opts) "") false ;;
  createOption "syncServerTimeout" "120000" false ;;
  createOption "syncProxy" (orElse (syncProxy opts) "") false.

(** All the default options that must be initialized on new and existing
    databases (at startup). *)
Definition defaultOptions : list DefaultOption.t := [
  literalOption "revisionSnapshotTimeInterval" "600" true;
  literalOption "revisionSnapshotNumberLimit" "-1" true;
  literalOption "protectedSessionTimeout" "600" true;
  literalOption "zoomFactor"
    (if String.eqb (platform process) "win32" then "0.9" else "1.0") false;
  literalOption "overrideThemeFonts" "false" false;
  literalOption "mainFontFamily" "theme" false;
  literalOption "mainFontSize" "100" false;
  literalOption "treeFontFamily" "theme" false;
  literalOption "treeFontSize" "100" false;
  literalOption "detailFontFamily" "theme" false;
  literalOption "detailFontSize" "110" false;
  literalOption "monospaceFontFamily" "theme" false;
  literalOption "monospaceFontSize" "110" false;
  literalOption "spellCheckEnabled" "true" false;
  literalOption "spellCheckLanguageCode" "en-US" false;
  literalOption "imageMaxWidthHeight" "2000" true;
  literalOption "imageJpegQuality" "75" true;
  literalOption "autoFixConsistencyIssues" "true" false;
  literalOption "vimKeymapEnabled" "false" false;
  literalOption "codeLineWrapEnabled" "true" false;
  literalOption "codeNotesMimeTypes" codeNotesMimeTypesDefault true;
  literalOption "leftPaneWidth" "25" false;
  literalOption "leftPaneVisible" "true" false;
  literalOption "rightPaneWidth" "25" false;
  literalOption "rightPaneVisible" "true" false;
  literalOption "nativeTitleBarVisible" "false" false;
  literalOption "eraseEntitiesAfterTimeInSeconds" "604800" true;
  literalOption "hideArchivedNotes_main" "false" false;
  literalOption "debugModeEnabled" "false" false;
  literalOption "headingStyle" "underline" true;
  literalOption "autoCollapseNoteTree" "true" true;
  literalOption "autoReadonlySizeText" "10000" false;
  literalOption "autoReadonlySizeCode" "30000" false;
  literalOption "dailyBackupEnabled" "true" false;
  literalOption "weeklyBackupEnabled" "true" false;
  literalOption "monthlyBackupEnabled" "true" false;
  literalOption "maxContentWidth" "1200" false;
  literalOption "compressImages" "true" true;
  literalOption "downloadImagesAutomatically" "true" true;
  literalOption "minTocHeadings" "5" true;
  literalOption "highlightsList" highlightsListDefault true;
  literalOption "checkForUpdates" "true" true;
  literalOption "disableTray" "false" false;
  literalOption "eraseUnusedAttachmentsAfterSeconds" "2592000" true;
  literalOption "customSearchEngineName" "DuckDuckGo" true;
  literalOption "customSearchEngineUrl" "https://duckduckgo.com/?q={keyword}" true;
  literalOption "promotedAttributesOpenInRibbon" "true" true;
  literalOption "editedNotesOpenInRibbon" "true" true;
  (* Internationalization *)
  literalOption "locale" "en" true;
  literalOption "firstDayOfWeek" "1" true;
  (* Code block configuration *)
  DefaultOption.mk "codeBlockTheme" (Function codeBlockThemeDefault) false;
  literalOption "codeBlockWordWrap" "false" true;
  (* Text note configuration *)
  literalOption "textNoteEditorType" "ckeditor-balloon" true;
  literalOption "textNoteEditorMultilineToolbar" "false" true;
  (* HTML import configuration *)
  literalOption "layoutOrientation" "vertical" false;
  literalOption "backgroundEffects" "false" false;
  literalOption "allowedHtmlTags" allowedHtmlTagsDefault true
].

(** [`keyboardShortcuts${actionName.charAt(0).toUpperCase()}${actionName.slice(1)}`].
    For an action name that starts with U+00B5 or U+00FF the option name
    of the source has a code unit above 255; the first code unit is kept
    there, and the statements about the generated names leave these two
    out. *)
Definition keyboardOptionName (actionName : string) : string :=
  match actionName with
  | String c rest =>
      "keyboardShortcuts"
      +:+ default (String c EmptyString) (toUpperCase c) +:+ rest
  | EmptyString => "keyboardShortcuts"
  end.

Definition getKeyboardDefaultOptions : list DefaultOption.t :=
  List.map
    (fun ka =>
       DefaultOption.mk
         (keyboardOptionName (default "" (actionName ka)))
         (Literal (JSON_stringify (JArray (List.map JString (defaultShortcuts ka)))))
         false)
    (List.filter (fun ka => truthy (actionName ka)) defaultKeyboardActions).

(** The body of the loop of [initStartupOptions] for one descriptor;
    [optionsMap] is the snapshot read before the loop. *)
Definition initDefaultOption (optionsMap : OptionMap) (d : DefaultOption.t) : M unit :=
  let name := DefaultOption.name d in
  if decide (is_Some (optionsMap !! name)) then ret tt
  else
    let resolvedValue :=
      match DefaultOption.value d with
      | Function value => value optionsMap
      | Literal value => value
      end in
    createOption name resolvedValue (DefaultOption.isSynced d) ;;
    log_info ("Created option " +:+ dquote +:+ name +:+ dquote
              +:+ " with default value " +:+ dquote +:+ resolvedValue +:+ dquote).

(** The loop of [initStartupOptions] over an arbitrary table. *)
Definition initDefaults (allDefaultOptions : list DefaultOption.t) : M unit :=
  optionsMap <- getOptionMap ;;
  forOf allDefaultOptions (initDefaultOption optionsMap).

Definition openNoteContextsOverride : string :=
  JSON_stringify (JArray [JObject [
    ("notePath", JString (orElse (TRILIUM_START_NOTE_ID process) "root"));
    ("active", JBool true)]]).

Definition allDefaultOptions : list DefaultOption.t :=
  defaultOptions ++ getKeyboardDefaultOptions.

Definition initStartupOptions : M unit :=
  initDefaults allDefaultOptions ;;
  if truthy (TRILIUM_START_NOTE_ID process) || truthy (TRILIUM_SAFE_MODE process)
  then setOption "openNoteContexts" openNoteContextsOverride
  else ret tt.

End Startup.


(** ** Auxiliary definitions for the statements *)

(** The collection [getOptionOrNull] reads: the registry when it is loaded,
    the table otherwise. *)
Definition stored (w : World) : list BOption.t :=
  if loaded (becca w) then options (becca w) else sql_options w.

Definition optionMapOf (l : list BOption.t) : OptionMap :=
  foldl (fun (map : OptionMap) option =>
           <[BOption.name option := BOption.value option]> map) ∅ l.

Definition names (l : list BOption.t) : list string := List.map BOption.name l.

Definition resolve (optionsMap : OptionMap) (d : DefaultOption.t) : string :=
  match DefaultOption.value d with
  | Function value => value optionsMap
  | Literal value => value
  end.

(** The entities one pass over [table] creates from the snapshot [m],
    stamped from time [t] on. *)
Fixpoint newEntities (t : nat) (m : OptionMap) (table : list DefaultOption.t)
  : list BOption.t :=
  match table with
  | [] => []
  | d :: table' =>
      if decide (is_Some (m !! DefaultOption.name d)) then newEntities t m table'
      else BOption.mk (DefaultOption.name d) (resolve m d) (DefaultOption.isSynced d) t
           :: newEntities (S t) m table'
  end.

Definition createdLine (o : BOption.t) : string :=
  "Created option " +:+ dquote +:+ BOption.name o +:+ dquote
  +:+ " with default value " +:+ dquote +:+ BOption.value o +:+ dquote.

(** The last descriptor of [table] called [n]. *)
Fixpoint lastDefault (n : string) (table : list DefaultOption.t)
  : option DefaultOption.t :=
  match table with
  | [] => None
  | d :: table' =>
      match lastDefault n table' with
      | Some d' => Some d'
      | None => if decide (DefaultOption.name d = n) then Some d else None
      end
  end.

(** The error conditions of the specification, with the messages of the
    source. *)
Definition NotFound (name : string) : JsError :=
  Error ("Option '" +:+ name +:+ "' doesn't exist").

Definition ParseError (val kind name : string) : JsError :=
  Error ("Could not parse '" +:+ val +:+ "' into " +:+ kind +:+ " for option '"
         +:+ name +:+ "'").

(** *** Numerals, for the statements about [getOptionInt] *)

Fixpoint allChars (P : ascii -> bool) (s : string) : bool :=
  match s with
  | String c s' => P c && allChars P s'
  | EmptyString => true
  end.

Definition startsWith (P : ascii -> bool) (s : string) : bool :=
  match s with
  | String c _ => P c
  | EmptyString => false
  end.

Definition isDecimalDigit (c : ascii) : bool :=
  (48 <=? code c)%nat && (code c <=? 57)%nat.

Definition isHexDigit (c : ascii) : bool :=
  isDecimalDigit c
  || ((97 <=? code c)%nat && (code c <=? 102)%nat)
  || ((65 <=? code c)%nat && (code c <=? 70)%nat).

Definition hexDigitValue (c : ascii) : Z :=
  if isDecimalDigit c then (Z.of_nat (code c) - 48)%Z
  else if (97 <=? code c)%nat then (Z.of_nat (code c) - 87)%Z
  else (Z.of_nat (code c) - 55)%Z.

(** Value of a digit string in positional notation. *)
Fixpoint positional (R : Z) (digitOf : ascii -> Z) (s : string) : Z :=
  match s with
  | String c s' =>
      (digitOf c * R ^ Z.of_nat (String.length s') + positional R digitOf s')%Z
  | EmptyString => 0%Z
  end.

Definition decimalValue (s : string) : Z :=
  positional 10 (fun c => (Z.of_nat (code c) - 48)%Z) s.

Definition hexValue (s : string) : Z := positional 16 hexDigitValue s.

Definition hexPrefixed (s : string) : bool :=
  String.eqb (String.substring 0 2 s) "0x" || String.eqb (String.substring 0 2 s) "0X".

Definition signValue (sign : string) : Z :=
  if String.eqb sign "-" then (-1)%Z else 1%Z.

(** The part of a string after leading white space and an optional sign. *)
Definition unsignedPart (s : string) : string := snd (splitSign (trimStart s)).

(** The integer a number stands for, when it stands for one. *)
Definition Z_of_number (x : Number) : option Z :=
  match x with
  | S754_zero _ => Some 0%Z
  | S754_finite s m e =>
      match e with
      | Z0 => Some (if s then Z.neg m else Z.pos m)
      | Zpos p => Some ((if s then Z.neg m else Z.pos m) * 2 ^ Z.pos p)%Z
      | Zneg p =>
          if (Z.pos m mod 2 ^ Z.pos p =? 0)%Z
          then Some ((if s then Z.neg m else Z.pos m) / 2 ^ Z.pos p)%Z
          else None
      end
  | _ => None
  end.

(** The reading of the specification: the stored string parsed as an
    integer in a given base, [parseInt(string, R)] for [R] 10 or 16 (a
    leading [0x] or [0X] is skipped in base 16 only). *)
Definition parseIntRadix (R : Z) (string : string) : Number :=
  let '(sign, unsigned) := splitSign (trimStart string) in
  let body := if (R =? 16)%Z then snd (splitRadix unsigned) else unsigned in
  match leadingDigits R body with
  | [] => NaN
  | digits => number_of_Z (sign * mathInt R digits) (sign =? -1)%Z
  end.

(** The reading of the specification: [getOptionInt] with the stored
    string parsed in base [R]; base 10 is the specification as written. *)
Definition getOptionIntRadix (R : Z) (name : string) (defaultValue : option Number)
  : M Number :=
  val <- getOption name ;;
  let intVal := parseIntRadix R val in
  if isNaN intVal then
    match defaultValue with
    | None => throw (ParseError val "integer" name)
    | Some defaultValue => ret defaultValue
    end
  else ret intVal.

(** The world after the entities [es] have been created and logged. *)
Definition addEntities (es : list BOption.t) (w : World) : World :=
  {| becca := {| loaded := loaded (becca w); options := options (becca w) ++ es |};
     sql_options := sql_options w ++ es;
     utcNow := utcNow w + length es;
     log := log w ++ List.map createdLine es |}.

(** Number of entities or rows called [n]. *)
Definition countName (n : string) (l : list BOption.t) : nat :=
  length (List.filter (fun o => String.eqb (BOption.name o) n) l).

Arguments countName : simpl never.

(** ** Icon usage: [getIconUsage] of the API route *)

(** An attribute as [getIconUsage] reads it: its value, which may be
    missing, and the note it belongs to. *)
Module Attribute.
Record t : Type := mk {
  value : option string;
  noteId : string
}.
End Attribute.

(** A property of [iconClassToCountMap]: a count, or the string that
    [+ 1] yields once an inherited member of [Object.prototype] has been
    read under that key.  Counts are integers of magnitude at most 2^53. *)
Inductive CountValue : Type :=
| Count (n : Z)
| Text (s : string).

(** The property names a plain object inherits from [Object.prototype]. *)
Definition objectPrototypeKeys : list string :=
  ["constructor"; "__defineGetter__"; "__defineSetter__"; "hasOwnProperty";
   "__lookupGetter__"; "__lookupSetter__"; "isPrototypeOf";
   "propertyIsEnumerable"; "toString"; "valueOf"; "__proto__"; "toLocaleString"].

(** [n + 1] on an integer-valued number: exact up to 2^53, where the sum
    rounds back to 2^53. *)
Definition incr (n : Z) : Z := if (n <? 2 ^ 53)%Z then (n + 1)%Z else n.

Fixpoint trimEnd (s : string) : string :=
  match s with
  | String c s' =>
      match trimEnd s' with
      | EmptyString => if isWhiteSpace c then EmptyString else String c EmptyString
      | t => String c t
      end
  | EmptyString => EmptyString
  end.

(** [s.trim()]. *)
Definition trim (s : string) : string := trimStart (trimEnd s).

(** [s.split(/\s+/)]: the pieces of [s] between runs of white space,
    empty pieces at the ends included. *)
Fixpoint splitWhiteSpace (s : string) : list string :=
  match s with
  | String c s' =>
      if isWhiteSpace c then
        if startsWith isWhiteSpace s' then splitWhiteSpace s'
        else EmptyString :: splitWhiteSpace s'
      else
        match splitWhiteSpace s' with
        | t :: ts => String c t :: ts
        | [] => [String c EmptyString]
        end
  | EmptyString => [EmptyString]
  end.

Section IconUsage.

(** The text an inherited member of [Object.prototype] converts to, which
    the language leaves to the implementation. *)
Variable inheritedText : string -> string.

(** [iconClassToCountMap[clazz] = (iconClassToCountMap[clazz] || 0) + 1]:
    an own property is read first, then an inherited one; an assignment to
    [__proto__] of a string is ignored. *)
Definition bump (iconClassToCountMap : gmap string CountValue) (clazz : string)
  : gmap string CountValue :=
  match iconClassToCountMap !! clazz with
  | Some (Count n) => <[clazz := Count (incr n)]> iconClassToCountMap
  | Some (Text EmptyString) => <[clazz := Count 1]> iconClassToCountMap
  | Some (Text s) => <[clazz := Text (s +:+ "1")]> iconClassToCountMap
  | None =>
      if includes objectPrototypeKeys clazz then
        if String.eqb clazz "__proto__" then iconClassToCountMap
        else <[clazz := Text (inheritedText clazz +:+ "1")]> iconClassToCountMap
      else <[clazz := Count 1]> iconClassToCountMap
  end.

(** The body of the outer loop of [getIconUsage] for one attribute. *)
Definition countIconClasses (iconClassToCountMap : gmap string CountValue)
    (attribute : Attribute.t) : gmap string CountValue :=
  if startsWith (Ascii.eqb "_") (Attribute.noteId attribute) then
    (* ignore icons of "system" notes since they were not set by the user *)
    iconClassToCountMap
  else
    match Attribute.value attribute with
    | None => iconClassToCountMap
    | Some iconClass =>
        match trim iconClass with
        | EmptyString => iconClassToCountMap
        | trimmed =>
            foldl (fun map clazz => if String.eqb clazz "bx" then map else bump map clazz)
                  iconClassToCountMap (splitWhiteSpace trimmed)
        end
    end.

(** [getIconUsage()] on the attributes [becca.findAttributes('label',
    'iconClass')] returns. *)
Definition getIconUsage (attributes : list Attribute.t) : gmap string CountValue :=
  foldl countIconClasses ∅ attributes.

End IconUsage.

(** The classes [getIconUsage] counts for one attribute, in order. *)
Definition iconClasses (attribute : Attribute.t) : list string :=
  if startsWith (Ascii.eqb "_") (Attribute.noteId attribute) then []
  else
    match Attribute.value attribute with
    | None => []
    | Some iconClass =>
        match trim iconClass with
        | EmptyString => []
        | trimmed =>
            List.filter (fun clazz => negb (String.eqb clazz "bx"))
                        (splitWhiteSpace trimmed)
        end
    end.

(** How often [getIconUsage] counts [clazz] over [attributes]. *)
Definition occurrences (clazz : string) (attributes : list Attribute.t) : nat :=
  length (List.filter (String.eqb clazz) (concat (List.map iconClasses attributes))).

(** An attribute [getIconUsage] does not skip: of a note set by the user,
    with a value that is not blank. *)
Definition counted (attribute : Attribute.t) : bool :=
  negb (startsWith (Ascii.eqb "_") (Attribute.noteId attribute))
  && match Attribute.value attribute with
     | Some iconClass => negb (allChars isWhiteSpace iconClass)
     | None => false
     end.

(** What one more occurrence of [clazz] makes of its property. *)
Definition bumpAt (inheritedText : string -> string) (clazz : string)
    (v : option CountValue) : option CountValue :=
  match v with
  | Some (Count n) => Some (Count (incr n))
  | Some (Text EmptyString) => Some (Count 1)
  | Some (Text s) => Some (Text (s +:+ "1"))
  | None =>
      if includes objectPrototypeKeys clazz then
        if String.eqb clazz "__proto__" then None
        else Some (Text (inheritedText clazz +:+ "1"))
      else Some (Count 1)
  end.

(** [n] times the character 1. *)
Fixpoint ones (n : nat) : string :=
  match n with
  | O => EmptyString
  | S n' => String "1" (ones n')
  end.

(** Whether the last character of [s] satisfies [P]. *)
Fixpoint endsWith (P : ascii -> bool) (s : string) : bool :=
  match s with
  | String c EmptyString => P c
  | String c s' => endsWith P s'
  | EmptyString => false
  end.

(** ** Further auxiliary definitions *)

(** Number of descriptors of [table] called [n]. *)
Definition countDefault (n : string) (table : list DefaultOption.t) : nat :=
  length (List.filter (fun d => String.eqb (DefaultOption.name d) n) table).

Arguments countDefault : simpl never.

(** The condition of the environment override of [initStartupOptions]. *)
Definition overrideActive (process : Process) : bool :=
  truthy (TRILIUM_START_NOTE_ID process) || truthy (TRILIUM_SAFE_MODE process).

(** The descriptor [getKeyboardDefaultOptions] builds for one action. *)
Definition keyboardDescriptor (ka : KeyboardShortcut) : DefaultOption.t :=
  DefaultOption.mk
    (keyboardOptionName (default "" (actionName ka)))
    (Literal (JSON_stringify (JArray (List.map JString (defaultShortcuts ka)))))
    false.

(** The names [initNotSyncedOptions] creates, in creation order. *)
Definition notSyncedNames : list string :=
  ["openNoteContexts"; "lastDailyBackupDate"; "lastWeeklyBackupDate";
   "lastMonthlyBackupDate"; "dbVersion"; "initialized"; "lastSyncedPull";
   "lastSyncedPush"; "theme"; "syncServerHost"; "syncServerTimeout"; "syncProxy"].

(** [z.toString()] for an integer [z] below 10^21 in magnitude: its
    decimal digits, after a minus sign when it is negative. *)
Definition Number_toString_Z (z : Z) : string :=
  NilZero.string_of_int (Z.to_int z).

(** The digits of a decimal numeral, most significant first. *)
Fixpoint uint_digits (d : Decimal.uint) : list Z :=
  match d with
  | Nil => []
  | D0 d => 0%Z :: uint_digits d
  | D1 d => 1%Z :: uint_digits d
  | D2 d => 2%Z :: uint_digits d
  | D3 d => 3%Z :: uint_digits d
  | D4 d => 4%Z :: uint_digits d
  | D5 d => 5%Z :: uint_digits d
  | D6 d => 6%Z :: uint_digits d
  | D7 d => 7%Z :: uint_digits d
  | D8 d => 8%Z :: uint_digits d
  | D9 d => 9%Z :: uint_digits d
  end.

(** No digit follows the white space, sign and radix prefix of [val]. *)
Definition noDigitAhead (val : string) : bool :=
  let u := unsignedPart val in
  if hexPrefixed u
  then negb (startsWith isHexDigit (String.substring 2 (String.length u - 2) u))
  else negb (startsWith isDecimalDigit u).

(** The world after the entities [es] have been created one after the
    other, without logging. *)
Definition withCreated (es : list BOption.t) (w : World) : World :=
  {| becca := {| loaded := loaded (becca w); options := options (becca w) ++ es |};
     sql_options := sql_options w ++ es;
     utcNow := length es + utcNow w;
     log := log w |}.

(** ** Sample stores and environments, used to instantiate the statements *)

(** A loaded store holding [theme] and [minTocHeadings], used to
    instantiate the statements below. *)
Definition sampleWorld : World :=
  let os := [BOption.mk "theme" "next" false 0;
             BOption.mk "minTocHeadings" "5" true 1] in
  mkWorld (mkBecca true os) os 2 [].

(** A store whose registry is not loaded and empty while the table holds
    [theme], and the store of a database created for sync: the registry is
    not loaded and [initNotSyncedOptions] has run. *)
Definition unloadedWorld : World :=
  mkWorld (mkBecca false []) [BOption.mk "theme" "next" false 0] 1 [].

Definition syncSetupWorld : World :=
  execM (initNotSyncedOptions "228" (fun _ => "2024-01-01 00:00:00.000Z") false
           (mkNotSyncedOpts None None))
        (mkWorld (mkBecca false []) [] 0 []).

Definition emptyWorld : World := mkWorld (mkBecca true []) [] 0 [].

Definition sampleProcess : Process := mkProcess "linux" None None.

Definition safeModeProcess : Process := mkProcess "win32" None (Some "1").

Definition sampleKeyboardActions : list KeyboardShortcut :=
  [mkKeyboardShortcut (Some "backInNoteHistory") ["Alt+Left"];
   mkKeyboardShortcut None [];
   mkKeyboardShortcut (Some "jumpToNote") ["CommandOrControl+J"]].

(** The sample store with [minTocHeadings] set to [val]. *)
Definition storing (val : string) : World :=
  execM (setOption "minTocHeadings" val) sampleWorld.

Definition lightWorld : World :=
  let os := [BOption.mk "theme" "light" false 0] in mkWorld (mkBecca true os) os 1 [].

Definition darkWorld : World :=
  let os := [BOption.mk "theme" "dark" false 0] in mkWorld (mkBecca true os) os 1 [].

Definition sampleAttributes : list Attribute.t :=
  [Attribute.mk (Some "bx bx-home") "n1";
   Attribute.mk (Some " bx bxs-star  bx-home ") "n2";
   Attribute.mk (Some "bx bx-lock") "_hidden";
   Attribute.mk None "n3";
   Attribute.mk (Some "   ") "n4";
   Attribute.mk (Some "bx constructor") "n5"].

Definition sampleInheritedText (clazz : string) : string :=
  "function " +:+ clazz +:+ "() { [native code] }".

(** ** Lookup by name *)

Section ByName.

Implicit Types (l : list BOption.t) (o : BOption.t) (n : string).

Lemma lastIndexOf_names l1 l2 n :
  names l1 = names l2 -> lastIndexOf n l1 = lastIndexOf n l2.
Proof.
  revert l2; induction l1 as [|o l1 IH]; intros [|o2 l2] Hn;
    simpl in *; try discriminate; [reflexivity|].
  injection Hn as Ho Hl. rewrite (IH l2 Hl), Ho. reflexivity.
Qed.

Lemma lastIndexOf_Some l n i :
  lastIndexOf n l = Some i ->
  exists o, l !! i = Some o /\ BOption.name o = n.
Proof.
  revert i; induction l as [|o l IH]; intros i; simpl; [discriminate|].
  destruct (lastIndexOf n l) as [j|] eqn:Hj.
  - intros [= <-]. destruct (IH j eq_refl) as (o' & Ho' & Hn). eauto.
  - case_decide; [|discriminate]. intros [= <-]. eauto.
Qed.

Lemma lastIndexOf_None l n :
  lastIndexOf n l = None <-> (forall o, o ∈ l -> BOption.name o <> n).
Proof.
  induction l as [|o l IH]; simpl.
  - split; [intros _ o Ho; inversion Ho | reflexivity].
  - destruct (lastIndexOf n l) as [j|] eqn:Hj.
    + split; [discriminate|]. intros H.
      destruct (lastIndexOf_Some l n j Hj) as (o' & Ho' & Hn).
      exfalso. apply (H o'); [|exact Hn].
      right. eapply list_elem_of_lookup_2; eauto.
    + case_decide as Hd.
      * split; [discriminate|]. intros H. exfalso. apply (H o); [left|exact Hd].
      * split; [|reflexivity]. intros _ o' Ho'.
        apply elem_of_cons in Ho' as [->|Ho']; [exact Hd|].
        apply IH; [reflexivity|exact Ho'].
Qed.

Lemma lastIndexOf_app l1 l2 n :
  lastIndexOf n (l1 ++ l2) =
  match lastIndexOf n l2 with
  | Some i => Some (length l1 + i)
  | None => lastIndexOf n l1
  end.
Proof.
  induction l1 as [|o l1 IH]; simpl.
  - destruct (lastIndexOf n l2); reflexivity.
  - rewrite IH. destruct (lastIndexOf n l2); reflexivity.
Qed.

Lemma lookupByName_cons o l n :
  lookupByName n (o :: l) =
  match lookupByName n l with
  | Some (i, o') => Some (S i, o')
  | None => if decide (BOption.name o = n) then Some (0, o) else None
  end.
Proof.
  unfold lookupByName; simpl.
  destruct (lastIndexOf n l) as [j|] eqn:Hj; simpl.
  - destruct (lastIndexOf_Some l n j Hj) as (o' & -> & _). reflexivity.
  - case_decide; reflexivity.
Qed.

Lemma lookupByName_None l n :
  lookupByName n l = None <-> (forall o, o ∈ l -> BOption.name o <> n).
Proof.
  rewrite <- lastIndexOf_None. unfold lookupByName.
  destruct (lastIndexOf n l) as [j|] eqn:Hj; [|tauto].
  destruct (lastIndexOf_Some l n j Hj) as (o' & -> & _).
  split; discriminate.
Qed.

Lemma lookupByName_Some l n i o :
  lookupByName n l = Some (i, o) ->
  lastIndexOf n l = Some i /\ l !! i = Some o /\ BOption.name o = n.
Proof.
  unfold lookupByName.
  destruct (lastIndexOf n l) as [j|] eqn:Hj; [|discriminate].
  destruct (lastIndexOf_Some l n j Hj) as (o' & Ho' & Hn). rewrite Ho'.
  intros [= <- <-]. auto.
Qed.

Lemma lookupByName_elem l n i o :
  lookupByName n l = Some (i, o) -> o ∈ l /\ BOption.name o = n.
Proof.
  intros H. apply lookupByName_Some in H as (_ & Hl & Hn).
  split; [eapply list_elem_of_lookup_2; eauto | exact Hn].
Qed.

Lemma lookupByName_app l1 l2 n :
  lookupByName n (l1 ++ l2) =
  match lookupByName n l2 with
  | Some (i, o) => Some (length l1 + i, o)
  | None => lookupByName n l1
  end.
Proof.
  induction l1 as [|o l1 IH]; simpl.
  - destruct (lookupByName n l2) as [[i o]|]; reflexivity.
  - rewrite lookupByName_cons, IH.
    destruct (lookupByName n l2) as [[i o']|]; [reflexivity|].
    rewrite lookupByName_cons. reflexivity.
Qed.

(** The snapshot maps a name to the value of its most recent entity. *)
Lemma optionMapOf_lookup_from (m : OptionMap) l n :
  foldl (fun (map : OptionMap) option =>
           <[BOption.name option := BOption.value option]> map) m l !! n =
  match lookupByName n l with
  | Some (_, o) => Some (BOption.value o)
  | None => m !! n
  end.
Proof.
  revert m; induction l as [|o l IH]; intros m; simpl; [reflexivity|].
  rewrite IH, lookupByName_cons.
  destruct (lookupByName n l) as [[i o']|]; [reflexivity|].
  case_decide as Hd.
  - subst n. apply lookup_insert_eq.
  - apply lookup_insert_ne. exact Hd.
Qed.

Lemma optionMapOf_lookup l n :
  optionMapOf l !! n = (BOption.value ∘ snd) <$> lookupByName n l.
Proof.
  unfold optionMapOf. rewrite optionMapOf_lookup_from.
  destruct (lookupByName n l) as [[i o]|]; reflexivity.
Qed.

Lemma optionMapOf_app l1 l2 n :
  optionMapOf (l1 ++ l2) !! n =
  match optionMapOf l2 !! n with
  | Some v => Some v
  | None => optionMapOf l1 !! n
  end.
Proof.
  rewrite !optionMapOf_lookup, lookupByName_app.
  destruct (lookupByName n l2) as [[i o]|]; reflexivity.
Qed.

Lemma optionMapOf_snoc l o :
  optionMapOf (l ++ [o]) = <[BOption.name o := BOption.value o]> (optionMapOf l).
Proof. unfold optionMapOf. rewrite foldl_app. reflexivity. Qed.

(** Rewriting the most recent entity of a name with a new value. *)
Lemma optionMapOf_update l n i o v t :
  lookupByName n l = Some (i, o) ->
  optionMapOf (<[i := BOption.mk n v (BOption.isSynced o) t]> l)
  = <[n := v]> (optionMapOf l).
Proof.
  intros H. pose proof (lookupByName_Some _ _ _ _ H) as (Hi & Hl & Hn).
  set (o' := BOption.mk n v (BOption.isSynced o) t).
  assert (Hnames : names (<[i := o']> l) = names l).
  { unfold names.
    change (List.map BOption.name) with (fmap (M:=list) BOption.name).
    rewrite list_fmap_insert. simpl.
    apply list_insert_id. rewrite list_lookup_fmap, Hl. simpl. congruence. }
  apply map_eq; intros n'. rewrite optionMapOf_lookup.
  unfold lookupByName. rewrite (lastIndexOf_names _ _ n' Hnames).
  destruct (decide (n = n')) as [<-|Hne].
  - rewrite lookup_insert_eq, Hi.
    rewrite list_lookup_insert_eq by (eapply lookup_lt_Some; eauto).
    reflexivity.
  - rewrite lookup_insert_ne by exact Hne. rewrite optionMapOf_lookup.
    unfold lookupByName.
    destruct (lastIndexOf n' l) as [j|] eqn:Hj; [|reflexivity].
    destruct (lastIndexOf_Some l n' j Hj) as (oj & Hoj & Hnj).
    rewrite list_lookup_insert_ne; [reflexivity|].
    intros ->. congruence.
Qed.

End ByName.

(** ** One pass of the default initializer *)

Section Pass.

Implicit Types (w : World) (m : OptionMap) (table : list DefaultOption.t).

Lemma addEntities_nil w : addEntities [] w = w.
Proof.
  destruct w as [[ld os] rows t lg]. unfold addEntities; simpl.
  rewrite !app_nil_r, Nat.add_0_r. reflexivity.
Qed.

Lemma addEntities_cons o es w :
  addEntities es (addEntities [o] w) = addEntities (o :: es) w.
Proof.
  unfold addEntities; simpl.
  rewrite <- !app_assoc. simpl. f_equal. lia.
Qed.

Lemma forOf_initDefaultOption m table w :
  forOf table (initDefaultOption m) w
  = (inr tt, addEntities (newEntities (utcNow w) m table) w).
Proof.
  revert w; induction table as [|d table IH]; intros w; simpl.
  - rewrite addEntities_nil. reflexivity.
  - unfold bind at 1. unfold initDefaultOption at 1.
    destruct (decide (is_Some (m !! DefaultOption.name d))) as [Hin|Hout].
    + unfold ret at 1. apply IH.
    + unfold bind, createOption, BOption_new_save, log_info; simpl.
      rewrite IH. simpl. rewrite <- addEntities_cons.
      f_equal. f_equal. unfold addEntities, createdLine, resolve; simpl.
      f_equal. lia.
Qed.

Lemma initDefaults_run table w :
  initDefaults table w
  = (inr tt,
     addEntities (newEntities (utcNow w) (optionMapOf (options (becca w))) table) w).
Proof.
  unfold initDefaults, bind, getOptionMap, getOptions, ret; simpl.
  apply forOf_initDefaultOption.
Qed.

Lemma optionMapOf_cons o l n :
  optionMapOf (o :: l) !! n =
  match optionMapOf l !! n with
  | Some v => Some v
  | None => if decide (BOption.name o = n) then Some (BOption.value o) else None
  end.
Proof.
  change (o :: l) with ([o] ++ l)%list. rewrite optionMapOf_app.
  destruct (optionMapOf l !! n); [reflexivity|].
  unfold optionMapOf; simpl. case_decide as Hd.
  - subst n. apply lookup_insert_eq.
  - rewrite lookup_insert_ne by exact Hd. apply lookup_empty.
Qed.

Lemma newEntities_lookup t m table n :
  optionMapOf (newEntities t m table) !! n =
  match m !! n with
  | Some _ => None
  | None => resolve m <$> lastDefault n table
  end.
Proof.
  revert t; induction table as [|d table IH]; intros t; simpl.
  - unfold optionMapOf; simpl. rewrite lookup_empty.
    destruct (m !! n); reflexivity.
  - destruct (decide (is_Some (m !! DefaultOption.name d))) as [Hin|Hout].
    + rewrite IH. destruct (m !! n) eqn:Hn; [reflexivity|].
      destruct (lastDefault n table); [reflexivity|].
      case_decide as Hd; [|reflexivity].
      subst n. rewrite Hn in Hin. destruct Hin; discriminate.
    + rewrite optionMapOf_cons, IH. simpl.
      destruct (m !! n) eqn:Hn.
      * case_decide as Hd; [|reflexivity].
        subst n. exfalso. apply Hout. eauto.
      * destruct (lastDefault n table); [reflexivity|].
        case_decide; reflexivity.
Qed.

Lemma newEntities_none t m table :
  (forall d, d ∈ table -> is_Some (m !! DefaultOption.name d)) ->
  newEntities t m table = [].
Proof.
  induction table as [|d table IH]; intros H; simpl; [reflexivity|].
  rewrite decide_True by (apply H; left).
  apply IH. intros d' Hd'. apply H. right. exact Hd'.
Qed.

Lemma lastDefault_elem n table d :
  d ∈ table -> DefaultOption.name d = n -> is_Some (lastDefault n table).
Proof.
  induction table as [|d' table IH]; intros Hd Hn; [inversion Hd|]; simpl.
  apply elem_of_cons in Hd as [->|Hd].
  - destruct (lastDefault n table); [eauto|]. rewrite decide_True by exact Hn. eauto.
  - destruct (IH Hd Hn) as [x ->]. eauto.
Qed.

Lemma lastDefault_app n t1 t2 :
  lastDefault n (t1 ++ t2) =
  match lastDefault n t2 with
  | Some d => Some d
  | None => lastDefault n t1
  end.
Proof.
  induction t1 as [|d t1 IH]; simpl.
  - destruct (lastDefault n t2); reflexivity.
  - rewrite IH. destruct (lastDefault n t2); reflexivity.
Qed.

Lemma lastDefault_absent n table :
  (forall d, d ∈ table -> DefaultOption.name d <> n) -> lastDefault n table = None.
Proof.
  induction table as [|d table IH]; intros H; simpl; [reflexivity|].
  rewrite IH by (intros d' Hd'; apply H; right; exact Hd').
  rewrite decide_False; [reflexivity|]. apply H. left.
Qed.

(** The snapshot after a pass, in terms of the snapshot before it. *)
Lemma initDefaults_map table w n :
  let m := optionMapOf (options (becca w)) in
  optionMapOf (options (becca (execM (initDefaults table) w))) !! n =
  match m !! n with
  | Some v => Some v
  | None => resolve m <$> lastDefault n table
  end.
Proof.
  intros m. unfold execM. rewrite initDefaults_run. simpl.
  rewrite optionMapOf_app, newEntities_lookup. fold m.
  destruct (m !! n); [reflexivity|].
  destruct (lastDefault n table); reflexivity.
Qed.

End Pass.

(** ** The accessors *)

Section Accessors.

Implicit Types (w : World) (l : list BOption.t) (o : BOption.t).

Lemma getOptionOrNull_run name w :
  getOptionOrNull name w
  = (inr ((BOption.value ∘ snd) <$> lookupByName name (stored w)), w).
Proof.
  unfold getOptionOrNull, stored, bind, becca_loaded, becca_getOption,
    sql_getRow_options, ret; simpl.
  destruct (loaded (becca w)); simpl;
    destruct (lookupByName name _) as [[i o]|]; reflexivity.
Qed.

Lemma getOption_run name w :
  getOption name w =
  match lookupByName name (stored w) with
  | Some (_, o) => (inr (BOption.value o), w)
  | None => (inl (NotFound name), w)
  end.
Proof.
  unfold getOption, bind. rewrite getOptionOrNull_run.
  destruct (lookupByName name (stored w)) as [[i o]|]; reflexivity.
Qed.

Lemma lookupByName_agree l n i o o' :
  lookupByName n l = Some (i, o) -> o' ∈ l -> BOption.name o' = n ->
  (forall o'', o'' ∈ l -> BOption.name o'' = n ->
               BOption.value o'' = BOption.value o') ->
  BOption.value o = BOption.value o'.
Proof.
  intros H _ _ Hall. apply lookupByName_elem in H as [Hin Hn]. auto.
Qed.

Lemma lookupByName_snoc l o :
  lookupByName (BOption.name o) (l ++ [o]) = Some (length l, o).
Proof.
  rewrite lookupByName_app, lookupByName_cons; simpl.
  rewrite decide_True by reflexivity. rewrite Nat.add_0_r. reflexivity.
Qed.

Lemma names_insert l i o o' :
  l !! i = Some o -> BOption.name o' = BOption.name o ->
  names (<[i := o']> l) = names l.
Proof.
  intros Hl Hn. unfold names.
  change (List.map BOption.name) with (fmap (M:=list) BOption.name).
  rewrite list_fmap_insert. apply list_insert_id.
  rewrite list_lookup_fmap, Hl. simpl. congruence.
Qed.

Lemma lookupByName_insert l n i o o' :
  lookupByName n l = Some (i, o) -> BOption.name o' = n ->
  lookupByName n (<[i := o']> l) = Some (i, o').
Proof.
  intros H Hn. apply lookupByName_Some in H as (Hi & Hl & Ho).
  unfold lookupByName.
  rewrite (lastIndexOf_names (<[i := o']> l) l n)
    by (eapply names_insert; [eauto | congruence]).
  rewrite Hi, list_lookup_insert_eq by (eapply lookup_lt_Some; eauto).
  reflexivity.
Qed.

Lemma lookupByName_sql_write o rows :
  exists i, lookupByName (BOption.name o) (sql_write o rows) = Some (i, o).
Proof.
  unfold sql_write.
  destruct (lastIndexOf (BOption.name o) rows) as [i|] eqn:Hi.
  - destruct (lastIndexOf_Some _ _ _ Hi) as (o0 & Ho0 & Hn0).
    exists i. apply (lookupByName_insert rows _ i o0); [|reflexivity].
    unfold lookupByName. rewrite Hi, Ho0. reflexivity.
  - eexists. apply lookupByName_snoc.
Qed.

Lemma sql_write_names o rows :
  is_Some (lastIndexOf (BOption.name o) rows) ->
  names (sql_write o rows) = names rows.
Proof.
  intros [i Hi]. unfold sql_write. rewrite Hi.
  destruct (lastIndexOf_Some _ _ _ Hi) as (o0 & Ho0 & Hn0).
  eapply names_insert; eauto.
Qed.

Lemma countName_app n l1 l2 :
  countName n (l1 ++ l2) = countName n l1 + countName n l2.
Proof. unfold countName. rewrite List.filter_app, length_app. reflexivity. Qed.

Lemma countName_one n v s t : countName n [BOption.mk n v s t] = 1.
Proof. unfold countName; simpl. rewrite String.eqb_refl. reflexivity. Qed.

Lemma countName_elem n l o :
  o ∈ l -> BOption.name o = n -> 1 <= countName n l.
Proof.
  induction l as [|o' l IH]; intros Hin Hn; [inversion Hin|].
  unfold countName in *; simpl.
  apply elem_of_cons in Hin as [<-|Hin].
  - rewrite Hn, String.eqb_refl. simpl. lia.
  - specialize (IH Hin Hn). destruct (String.eqb _ _); simpl; lia.
Qed.

(** The two paths of [setOption]. *)
Lemma setOption_create name value w :
  lookupByName name (options (becca w)) = None ->
  setOption name value w = createOption name value false w.
Proof.
  intros H. unfold setOption, bind, becca_getOption. rewrite H. reflexivity.
Qed.

Lemma setOption_update name value w i o :
  lookupByName name (options (becca w)) = Some (i, o) ->
  setOption name value w =
  (inr tt,
   {| becca := {| loaded := loaded (becca w);
                  options := <[i := BOption.mk name value (BOption.isSynced o)
                                                  (utcNow w)]> (options (becca w)) |};
      sql_options := sql_write (BOption.mk name value (BOption.isSynced o) (utcNow w))
                               (sql_options w);
      utcNow := S (utcNow w);
      log := log w |}).
Proof.
  intros H. unfold setOption, bind, becca_getOption. rewrite H.
  apply lookupByName_Some in H as (_ & _ & Hn).
  unfold BOption_setValue_save; simpl. rewrite Hn. reflexivity.
Qed.

Lemma setOption_map name value w :
  optionMapOf (options (becca (execM (setOption name value) w)))
  = <[name := value]> (optionMapOf (options (becca w))).
Proof.
  unfold execM.
  destruct (lookupByName name (options (becca w))) as [[i o]|] eqn:H.
  - rewrite (setOption_update _ _ _ _ _ H). simpl.
    apply optionMapOf_update with (o := o). exact H.
  - rewrite (setOption_create _ _ _ H). simpl. apply optionMapOf_snoc.
Qed.

Lemma setOption_stored name value w :
  exists i o, lookupByName name (stored (execM (setOption name value) w)) = Some (i, o)
              /\ BOption.value o = value.
Proof.
  unfold execM, stored.
  destruct (lookupByName name (options (becca w))) as [[i o]|] eqn:H.
  - rewrite (setOption_update _ _ _ _ _ H). simpl.
    destruct (loaded (becca w)).
    + eexists _, _. split; [eapply lookupByName_insert; eauto|]; reflexivity.
    + destruct (lookupByName_sql_write
                  (BOption.mk name value (BOption.isSynced o) (utcNow w))
                  (sql_options w)) as [j Hj].
      eexists _, _. split; [exact Hj|reflexivity].
  - rewrite (setOption_create _ _ _ H). simpl.
    destruct (loaded (becca w));
      eexists _, _; (split; [apply (lookupByName_snoc _ (BOption.mk name value false _))|reflexivity]).
Qed.

Lemma countName_names n l1 l2 :
  names l1 = names l2 -> countName n l1 = countName n l2.
Proof.
  revert l2; induction l1 as [|o1 l1 IH]; intros [|o2 l2] H;
    simpl in H; try discriminate; [reflexivity|].
  injection H as Ho Hl. specialize (IH l2 Hl).
  unfold countName in *; simpl. rewrite Ho.
  destruct (String.eqb (BOption.name o2) n); simpl; congruence.
Qed.

Lemma countName_zero n l :
  (forall o, o ∈ l -> BOption.name o <> n) -> countName n l = 0.
Proof.
  induction l as [|o l IH]; intros H; [reflexivity|].
  unfold countName in *; simpl.
  destruct (String.eqb_spec (BOption.name o) n) as [He|_].
  - exfalso. apply (H o); [left|exact He].
  - apply IH. intros o' Ho'. apply H. right. exact Ho'.
Qed.

Lemma setOption_sql_has name value w :
  is_Some (lastIndexOf name (sql_options (execM (setOption name value) w))).
Proof.
  unfold execM.
  destruct (lookupByName name (options (becca w))) as [[i o]|] eqn:H.
  - rewrite (setOption_update _ _ _ _ _ H). simpl.
    destruct (lookupByName_sql_write
                (BOption.mk name value (BOption.isSynced o) (utcNow w))
                (sql_options w)) as [j Hj].
    apply lookupByName_Some in Hj as (Hj & _). simpl in Hj. eauto.
  - rewrite (setOption_create _ _ _ H). simpl.
    rewrite lastIndexOf_app. simpl. rewrite decide_True by reflexivity. eauto.
Qed.

Lemma setOption_names_fixed name value w :
  is_Some (lookupByName name (options (becca w))) ->
  is_Some (lastIndexOf name (sql_options w)) ->
  names (options (becca (execM (setOption name value) w))) = names (options (becca w))
  /\ names (sql_options (execM (setOption name value) w)) = names (sql_options w).
Proof.
  intros [[i o] H] Hsql. unfold execM.
  rewrite (setOption_update _ _ _ _ _ H). simpl.
  apply lookupByName_Some in H as (_ & Hi & Hn). split.
  - eapply names_insert; eauto.
  - apply sql_write_names. exact Hsql.
Qed.

Lemma setOption_count name value w n :
  (n = name -> is_Some (lookupByName name (options (becca w)))) ->
  countName n (options (becca (execM (setOption name value) w)))
  = countName n (options (becca w)).
Proof.
  intros Hn. unfold execM.
  destruct (lookupByName name (options (becca w))) as [[i o]|] eqn:H.
  - rewrite (setOption_update _ _ _ _ _ H). simpl.
    apply countName_names.
    apply lookupByName_Some in H as (_ & Hi & Ho).
    eapply names_insert; eauto.
  - rewrite (setOption_create _ _ _ H). simpl.
    rewrite countName_app, (countName_zero n [_]); [lia|].
    intros o Ho. apply list_elem_of_singleton in Ho as ->. simpl.
    intros <-. destruct (Hn eq_refl); discriminate.
Qed.

End Accessors.

(** ** Properties of the option store *)

(** C2: for every name absent from the store (the registry when it is
    loaded, the table otherwise), [getOptionOrNull] returns null without
    throwing and [getOption] fails with the NotFound condition; for every
    name present in the store, both return the stored string value.
    Neither call changes the state. *)
Theorem getOption_absent_present (w : World) (name : string) :
  ((forall o, o ∈ stored w -> BOption.name o <> name) ->
   getOptionOrNull name w = (inr None, w)
   /\ getOption name w = (inl (NotFound name), w))
  /\
  (forall o,
     o ∈ stored w -> BOption.name o = name ->
     (forall o', o' ∈ stored w -> BOption.name o' = name ->
                 BOption.value o' = BOption.value o) ->
     getOptionOrNull name w = (inr (Some (BOption.value o)), w)
     /\ getOption name w = (inr (BOption.value o), w))
  /\
  (forall o,
     o ∈ stored w -> BOption.name o = name ->
     exists o', o' ∈ stored w /\ BOption.name o' = name
                /\ getOptionOrNull name w = (inr (Some (BOption.value o')), w)
                /\ getOption name w = (inr (BOption.value o'), w)).
Proof.
  split; [|split].
  - intros Habs. apply lookupByName_None in Habs.
    rewrite getOptionOrNull_run, getOption_run, Habs. split; reflexivity.
  - intros o Hin Hn Hall.
    rewrite getOptionOrNull_run, getOption_run.
    destruct (lookupByName name (stored w)) as [[i o0]|] eqn:H.
    + pose proof (lookupByName_agree _ _ _ _ o H Hin Hn Hall) as Hv.
      simpl. rewrite Hv. split; reflexivity.
    + exfalso. eapply (proj1 (lookupByName_None _ _) H); eauto.
  - intros o Hin Hn.
    rewrite getOptionOrNull_run, getOption_run.
    destruct (lookupByName name (stored w)) as [[i o0]|] eqn:H.
    + destruct (lookupByName_elem _ _ _ _ H) as [Hin0 Hn0].
      exists o0. repeat split; assumption.
    + exfalso. eapply (proj1 (lookupByName_None _ _) H); eauto.
Qed.

Lemma getOption_absent_present_witness :
  (getOptionOrNull "locale" sampleWorld = (inr None, sampleWorld)
   /\ getOption "locale" sampleWorld = (inl (NotFound "locale"), sampleWorld))
  /\ (getOptionOrNull "theme" sampleWorld = (inr (Some "next"), sampleWorld)
      /\ getOption "theme" sampleWorld = (inr "next", sampleWorld)).
Proof.
  split.
  - apply (proj1 (getOption_absent_present sampleWorld "locale")).
    intros o Ho. simpl in Ho.
    repeat (apply elem_of_cons in Ho as [->|Ho]; [discriminate|]).
    inversion Ho.
  - apply (proj1 (proj2 (getOption_absent_present sampleWorld "theme"))
             (BOption.mk "theme" "next" false 0)).
    + left.
    + reflexivity.
    + intros o' Ho' Hn. simpl in Ho'.
      apply elem_of_cons in Ho' as [->|Ho']; [reflexivity|].
      apply elem_of_cons in Ho' as [->|Ho']; [discriminate|].
      inversion Ho'.
Defined.

(** C3: [setOption] never throws.  On a name without a live entity it is
    [createOption name value false]: one new entity, not synced.  On a name
    with a live entity no entity is created, names and sync flags stay as
    they were, and the option map maps the name to the new value.  In both
    cases [getOption] reads the value back. *)
Theorem setOption_update_or_create (w : World) (name value : string) :
  let w' := execM (setOption name value) w in
  evalM (setOption name value) w = inr tt
  /\ evalM (getOption name) w' = inr value
  /\ ((forall o, o ∈ options (becca w) -> BOption.name o <> name) ->
      setOption name value w = createOption name value false w
      /\ options (becca w')
         = (options (becca w) ++ [BOption.mk name value false (utcNow w)])%list)
  /\ (forall o,
        o ∈ options (becca w) -> BOption.name o = name ->
        names (options (becca w')) = names (options (becca w))
        /\ List.map BOption.isSynced (options (becca w'))
           = List.map BOption.isSynced (options (becca w))
        /\ optionMapOf (options (becca w'))
           = <[name := value]> (optionMapOf (options (becca w)))).
Proof.
  intros w'. repeat split.
  - unfold evalM, setOption, bind, becca_getOption.
    destruct (lookupByName name (options (becca w))) as [[i o]|]; reflexivity.
  - destruct (setOption_stored name value w) as (i & o & H & Hv).
    subst w'. unfold evalM. rewrite getOption_run, H, Hv. reflexivity.
  - apply setOption_create. apply lookupByName_None. assumption.
  - subst w'. unfold execM. rewrite setOption_create
      by (apply lookupByName_None; assumption). reflexivity.
  - subst w'. unfold execM.
    destruct (lookupByName name (options (becca w))) as [[i o0]|] eqn:Hl.
    + rewrite (setOption_update _ _ _ _ _ Hl). simpl.
      apply lookupByName_Some in Hl as (_ & Hi & Hn).
      eapply names_insert; eauto.
    + exfalso. eapply (proj1 (lookupByName_None _ _) Hl); eauto.
  - subst w'. unfold execM.
    destruct (lookupByName name (options (becca w))) as [[i o0]|] eqn:Hl.
    + rewrite (setOption_update _ _ _ _ _ Hl). simpl.
      apply lookupByName_Some in Hl as (_ & Hi & Hn).
      change (List.map BOption.isSynced) with (fmap (M:=list) BOption.isSynced).
      rewrite list_fmap_insert. apply list_insert_id.
      rewrite list_lookup_fmap, Hi. reflexivity.
    + exfalso. eapply (proj1 (lookupByName_None _ _) Hl); eauto.
  - apply setOption_map.
Qed.

Lemma setOption_update_or_create_witness :
  (setOption "locale" "fr" sampleWorld = createOption "locale" "fr" false sampleWorld
   /\ options (becca (execM (setOption "locale" "fr") sampleWorld))
      = (options (becca sampleWorld) ++ [BOption.mk "locale" "fr" false 2])%list)
  /\ optionMapOf (options (becca (execM (setOption "theme" "dark") sampleWorld)))
     = <["theme" := "dark"]> (optionMapOf (options (becca sampleWorld))).
Proof.
  split.
  - apply (proj1 (proj2 (proj2 (setOption_update_or_create sampleWorld "locale" "fr")))).
    intros o Ho. simpl in Ho.
    repeat (apply elem_of_cons in Ho as [->|Ho]; [discriminate|]).
    inversion Ho.
  - apply (proj2 (proj2 (proj2 (setOption_update_or_create sampleWorld "theme" "dark")))
             (BOption.mk "theme" "next" false 0)).
    + left.
    + reflexivity.
Defined.

(** C5: for an existing option, [getOptionBool] returns true exactly when
    the stored string is the literal [true], false exactly when it is the
    literal [false], and fails with the ParseError condition, naming the
    raw value and the option, on every other stored string. *)
Theorem getOptionBool_strict (w : World) (name val : string) :
  evalM (getOption name) w = inr val ->
  (evalM (getOptionBool name) w = inr true <-> val = "true")
  /\ (evalM (getOptionBool name) w = inr false <-> val = "false")
  /\ (evalM (getOptionBool name) w = inl (ParseError val "boolean" name)
      <-> val <> "true" /\ val <> "false").
Proof.
  unfold evalM, getOptionBool, bind.
  destruct (getOption name w) as [[e|v] w1]; simpl; [discriminate|].
  intros [= ->]. unfold includes, typeof_string; simpl.
  destruct (String.eqb_spec val "true") as [->|Ht];
    [|destruct (String.eqb_spec val "false") as [->|Hf]]; simpl.
  - repeat split; try discriminate; try reflexivity; try tauto.
  - repeat split; try discriminate; try reflexivity; try tauto.
  - unfold ParseError. repeat split; try discriminate; try tauto.
Qed.

Lemma getOptionBool_strict_witness :
  evalM (getOptionBool "minTocHeadings") (storing "1")
  = inl (ParseError "1" "boolean" "minTocHeadings")
  /\ evalM (getOptionBool "minTocHeadings") (storing "true") = inr true
  /\ evalM (getOptionBool "minTocHeadings") (storing "TRUE")
     = inl (ParseError "TRUE" "boolean" "minTocHeadings").
Proof.
  split; [|split].
  - apply (proj2 (proj2 (getOptionBool_strict (storing "1") "minTocHeadings" "1" eq_refl))).
    split; discriminate.
  - apply (proj1 (getOptionBool_strict (storing "true") "minTocHeadings" "true" eq_refl)).
    reflexivity.
  - apply (proj2 (proj2 (getOptionBool_strict (storing "TRUE") "minTocHeadings" "TRUE"
                           eq_refl))).
    split; discriminate.
Defined.

(** C7: [createOption] inserts unconditionally.  Whatever the state, it
    returns normally, the new entity and its record are added after the
    existing ones, which are left as they were, and the number of options
    of that name grows by one: an existing option of the same name is
    neither detected nor replaced. *)
Theorem createOption_unconditional (w : World) (name value : string) (isSynced : bool) :
  let o := BOption.mk name value isSynced (utcNow w) in
  let w' := execM (createOption name value isSynced) w in
  evalM (createOption name value isSynced) w = inr tt
  /\ options (becca w') = (options (becca w) ++ [o])%list
  /\ sql_options w' = (sql_options w ++ [o])%list
  /\ countName name (options (becca w')) = S (countName name (options (becca w)))
  /\ countName name (sql_options w') = S (countName name (sql_options w)).
Proof.
  simpl. unfold execM, evalM, createOption, BOption_new_save; simpl.
  rewrite !countName_app. unfold countName; simpl. rewrite String.eqb_refl; simpl.
  repeat split; lia.
Qed.

(** C10, as stated, fails: with the registry not loaded, [setOption] on a
    name created in this process updates the live entity instead of
    creating a second one. *)
Lemma setOption_unloaded_counterexample :
  ~ (forall (w : World) (name value : string),
       loaded (becca w) = false ->
       setOption name value w = createOption name value false w).
Proof.
  intros H.
  assert (Hunloaded : loaded (becca syncSetupWorld) = false)
    by (vm_compute; reflexivity).
  specialize (H syncSetupWorld "theme" "dark" Hunloaded).
  vm_compute in H. discriminate H.
Qed.

(** C10, amended: [setOption] decides between update and create from the
    registry alone; neither the loaded flag nor the table is consulted.
    Without a live entity of the name it takes the create path with
    [isSynced = false]; when in addition the registry is not loaded and
    [getOptionOrNull] finds the name in the table, the table ends up with
    one more row of that name, a duplicate.  With a live entity of the
    name it updates that entity and creates nothing, also while the
    registry is not loaded: the entity found by the registry lookup holds
    the new value, with its name and sync flag as before, every other
    entity is as it was, the registry has as many entities as before, the
    option map gives the new value, and the run is not the create path. *)
Theorem setOption_consults_registry_only (w : World) (name value : string) :
  let w' := execM (setOption name value) w in
  ((forall o, o ∈ options (becca w) -> BOption.name o <> name) ->
   setOption name value w = createOption name value false w
   /\ (forall v0,
         loaded (becca w) = false ->
         evalM (getOptionOrNull name) w = inr (Some v0) ->
         countName name (sql_options w') = S (countName name (sql_options w))
         /\ 2 <= countName name (sql_options w')))
  /\ (forall o,
        o ∈ options (becca w) -> BOption.name o = name ->
        exists i o0,
          lookupByName name (options (becca w)) = Some (i, o0)
          /\ evalM (setOption name value) w = inr tt
          /\ options (becca w') !! i
             = Some (BOption.mk name value (BOption.isSynced o0) (utcNow w))
          /\ (forall j, j <> i -> options (becca w') !! j = options (becca w) !! j)
          /\ length (options (becca w')) = length (options (becca w))
          /\ names (options (becca w')) = names (options (becca w))
          /\ countName name (options (becca w')) = countName name (options (becca w))
          /\ optionMapOf (options (becca w')) !! name = Some value
          /\ loaded (becca w') = loaded (becca w)
          /\ sql_options w'
             = sql_write (BOption.mk name value (BOption.isSynced o0) (utcNow w))
                         (sql_options w)
          /\ setOption name value w <> createOption name value false w).
Proof.
  intros w'. split.
  - intros Habs. apply lookupByName_None in Habs.
    split; [apply setOption_create; exact Habs|].
    intros v0 Hld Hget.
    assert (Hrow : 1 <= countName name (sql_options w)).
    { unfold evalM in Hget. rewrite getOptionOrNull_run in Hget.
      unfold stored in Hget. rewrite Hld in Hget. simpl in Hget.
      destruct (lookupByName name (sql_options w)) as [[i o]|] eqn:Hl;
        [|discriminate].
      apply lookupByName_elem in Hl as [Hin Hn].
      eapply countName_elem; eauto. }
    subst w'. unfold execM. rewrite (setOption_create _ _ _ Habs).
    unfold createOption, BOption_new_save; simpl.
    rewrite countName_app, countName_one. lia.
  - intros o Hin Hn.
    destruct (lookupByName name (options (becca w))) as [[i o0]|] eqn:Hl;
      [|exfalso; eapply (proj1 (lookupByName_None _ _) Hl); eauto].
    exists i, o0. split; [reflexivity|].
    pose proof (setOption_map name value w) as Hmap. fold w' in Hmap.
    pose proof (setOption_update _ value _ _ _ Hl) as Hrun.
    assert (Hw' : w' = snd (setOption name value w)) by reflexivity.
    rewrite Hrun in Hw'. cbn [snd] in Hw'.
    apply lookupByName_Some in Hl as (_ & Hi & Hn0).
    assert (Hlt : i < length (options (becca w)))
      by (apply lookup_lt_is_Some; eauto).
    assert (Hnames : names (<[i := BOption.mk name value (BOption.isSynced o0)
                                         (utcNow w)]> (options (becca w)))
                     = names (options (becca w)))
      by (eapply names_insert; eauto).
    assert (Hlen : length (options (becca w')) = length (options (becca w)))
      by (rewrite Hw'; cbn [becca options]; apply length_insert).
    split; [unfold evalM; rewrite Hrun; reflexivity|].
    split; [rewrite Hw'; cbn [becca options]; apply list_lookup_insert_eq; exact Hlt|].
    split; [intros j Hj; rewrite Hw'; cbn [becca options];
            apply list_lookup_insert_ne; congruence|].
    split; [exact Hlen|].
    split; [rewrite Hw'; exact Hnames|].
    split; [rewrite Hw'; apply countName_names; exact Hnames|].
    split; [rewrite Hmap; apply lookup_insert_eq|].
    split; [rewrite Hw'; reflexivity|].
    split; [rewrite Hw'; reflexivity|].
    intros Heq.
    assert (Hlen' : length (options (becca w')) = S (length (options (becca w)))).
    { unfold w', execM. rewrite Heq. unfold createOption, BOption_new_save.
      cbn [snd becca options]. rewrite length_app. cbn [length]. lia. }
    lia.
Qed.

Lemma setOption_consults_registry_only_witness :
  (setOption "theme" "dark" unloadedWorld = createOption "theme" "dark" false unloadedWorld
   /\ countName "theme" (sql_options (execM (setOption "theme" "dark") unloadedWorld)) = 2)
  /\ optionMapOf (options (becca (execM (setOption "theme" "dark") syncSetupWorld)))
       !! "theme" = Some "dark"
  /\ length (options (becca (execM (setOption "theme" "dark") syncSetupWorld)))
     = length (options (becca syncSetupWorld)).
Proof.
  split.
  - assert (Habs : forall o, o ∈ options (becca unloadedWorld) ->
                             BOption.name o <> "theme")
      by (intros o Ho; inversion Ho).
    destruct (proj1 (setOption_consults_registry_only unloadedWorld "theme" "dark") Habs)
      as [Hc Hdup].
    split; [exact Hc|].
    destruct (Hdup "next" eq_refl eq_refl) as [Hcount _].
    rewrite Hcount. reflexivity.
  - destruct (proj2 (setOption_consults_registry_only syncSetupWorld "theme" "dark")
                (BOption.mk "theme" "next" false 8))
      as (i & o0 & _ & _ & _ & _ & Hlen & _ & _ & Hmap & _).
    + apply list_elem_of_In. vm_compute. do 8 right. left. reflexivity.
    + reflexivity.
    + split; [exact Hmap|exact Hlen].
Defined.

(** ** Properties of the default initializer *)

Section StartupProperties.

Variable process : Process.
Variable defaultKeyboardActions : list KeyboardShortcut.

Let table : list DefaultOption.t :=
  allDefaultOptions process defaultKeyboardActions.

Let override : bool :=
  truthy (TRILIUM_START_NOTE_ID process) || truthy (TRILIUM_SAFE_MODE process).

Implicit Types (w : World).

Lemma getKeyboardDefaultOptions_name d :
  d ∈ getKeyboardDefaultOptions defaultKeyboardActions ->
  exists s, DefaultOption.name d = "keyboardShortcuts" +:+ s.
Proof.
  unfold getKeyboardDefaultOptions. intros Hd.
  apply list_elem_of_In, in_map_iff in Hd as (ka & <- & _). simpl.
  unfold keyboardOptionName. destruct (default "" (actionName ka)).
  - exists "". reflexivity.
  - eexists. reflexivity.
Qed.

Lemma lastDefault_codeBlockTheme :
  lastDefault "codeBlockTheme" table
  = Some (DefaultOption.mk "codeBlockTheme" (Function codeBlockThemeDefault) false).
Proof.
  unfold table, allDefaultOptions. rewrite lastDefault_app, lastDefault_absent.
  - vm_compute. reflexivity.
  - intros d Hd. destruct (getKeyboardDefaultOptions_name d Hd) as [s ->].
    discriminate.
Qed.

Lemma initStartupOptions_run w :
  initStartupOptions process defaultKeyboardActions w =
  let w' := execM (initDefaults table) w in
  if override then setOption "openNoteContexts" (openNoteContextsOverride process) w'
  else (inr tt, w').
Proof.
  unfold initStartupOptions, bind, execM. fold table override.
  rewrite initDefaults_run. cbv beta iota zeta. destruct override; reflexivity.
Qed.

Lemma initStartupOptions_returns w :
  evalM (initStartupOptions process defaultKeyboardActions) w = inr tt.
Proof.
  unfold evalM. rewrite initStartupOptions_run. simpl.
  destruct override; [|reflexivity].
  unfold setOption, bind, becca_getOption.
  destruct (lookupByName _ _) as [[i o]|]; reflexivity.
Qed.

(** The snapshot after startup initialization. *)
Lemma initStartupOptions_map w :
  optionMapOf (options (becca (execM (initStartupOptions process defaultKeyboardActions) w)))
  = let m' := optionMapOf (options (becca (execM (initDefaults table) w))) in
    if override then <["openNoteContexts" := openNoteContextsOverride process]> m'
    else m'.
Proof.
  unfold execM at 1. rewrite initStartupOptions_run. simpl.
  destruct override; [|reflexivity].
  apply setOption_map.
Qed.

Lemma initStartupOptions_codeBlockTheme w :
  let m := optionMapOf (options (becca w)) in
  m !! "codeBlockTheme" = None ->
  optionMapOf (options (becca (execM (initStartupOptions process defaultKeyboardActions) w)))
    !! "codeBlockTheme" = Some (codeBlockThemeDefault m).
Proof.
  intros m Hm. rewrite initStartupOptions_map. simpl.
  assert (H : optionMapOf (options (becca (execM (initDefaults table) w)))
                !! "codeBlockTheme" = Some (codeBlockThemeDefault m)).
  { rewrite initDefaults_map. fold m. rewrite Hm, lastDefault_codeBlockTheme.
    reflexivity. }
  destruct override; [|exact H].
  rewrite lookup_insert_ne by discriminate. exact H.
Qed.

(** After startup initialization every default is present. *)
Lemma initStartupOptions_present w d :
  d ∈ table ->
  is_Some (optionMapOf (options (becca (execM (initStartupOptions process
                                                 defaultKeyboardActions) w)))
             !! DefaultOption.name d).
Proof.
  intros Hd. rewrite initStartupOptions_map. simpl.
  assert (H : is_Some (optionMapOf (options (becca (execM (initDefaults table) w)))
                         !! DefaultOption.name d)).
  { rewrite initDefaults_map.
    destruct (optionMapOf (options (becca w)) !! DefaultOption.name d); [eauto|].
    destruct (lastDefault_elem _ _ d Hd eq_refl) as [d' ->]. simpl. eauto. }
  destruct override; [|exact H].
  rewrite lookup_insert. case_decide; [eauto|exact H].
Qed.

(** A pass over a store in which every default is present changes nothing. *)
Lemma initDefaults_fixed w :
  (forall d, d ∈ table ->
             is_Some (optionMapOf (options (becca w)) !! DefaultOption.name d)) ->
  initDefaults table w = (inr tt, w).
Proof.
  intros H. rewrite initDefaults_run, newEntities_none by exact H.
  rewrite addEntities_nil. reflexivity.
Qed.


Lemma newEntities_absent t (m : OptionMap) tbl o :
  o ∈ newEntities t m tbl -> m !! BOption.name o = None.
Proof.
  revert t; induction tbl as [|d tbl IH]; intros t Ho; simpl in Ho;
    [inversion Ho|].
  destruct (decide (is_Some (m !! DefaultOption.name d))) as [Hin|Hout];
    [eauto|].
  apply elem_of_cons in Ho as [->|Ho]; [|eauto]. simpl.
  destruct (m !! DefaultOption.name d) eqn:E; [|reflexivity].
  exfalso. apply Hout. eauto.
Qed.

Lemma initDefaults_count tbl w n :
  is_Some (optionMapOf (options (becca w)) !! n) ->
  countName n (options (becca (execM (initDefaults tbl) w)))
  = countName n (options (becca w)).
Proof.
  intros [v Hv]. unfold execM. rewrite initDefaults_run. simpl.
  rewrite countName_app, (countName_zero n (newEntities _ _ _)); [lia|].
  intros o Ho Hn. apply newEntities_absent in Ho. congruence.
Qed.

(** C1: [initStartupOptions] is idempotent.  From every starting state
    both runs return normally, the option map after the second run is
    the option map after the first, and the second run creates no entity
    and no row.  A name present in the map before a run, whatever its
    value, gets no new entity in that run, and unless it is the
    overridden [openNoteContexts] it keeps its value. *)
Theorem initStartupOptions_idempotent w :
  let init := initStartupOptions process defaultKeyboardActions in
  let w1 := execM init w in
  let w2 := execM init w1 in
  evalM init w = inr tt /\ evalM init w1 = inr tt
  /\ evalM getOptionMap w2 = evalM getOptionMap w1
  /\ names (options (becca w2)) = names (options (becca w1))
  /\ names (sql_options w2) = names (sql_options w1)
  /\ (forall n,
        is_Some (optionMapOf (options (becca w)) !! n) ->
        countName n (options (becca w1)) = countName n (options (becca w))
        /\ (n <> "openNoteContexts" ->
            optionMapOf (options (becca w1)) !! n
            = optionMapOf (options (becca w)) !! n)).
Proof.
  intros init w1 w2.
  assert (Hfix : initDefaults table w1 = (inr tt, w1)).
  { apply initDefaults_fixed. intros d Hd.
    apply initStartupOptions_present. exact Hd. }
  assert (Hw2 : w2 = if override
                     then execM (setOption "openNoteContexts"
                                   (openNoteContextsOverride process)) w1
                     else w1).
  { subst w2 init. unfold execM at 1. rewrite initStartupOptions_run.
    unfold execM at 1. rewrite Hfix. simpl. destruct override; reflexivity. }
  assert (Hw1 : w1 = let wa := execM (initDefaults table) w in
                     if override
                     then execM (setOption "openNoteContexts"
                                   (openNoteContextsOverride process)) wa
                     else wa).
  { subst w1 init. unfold execM at 1. rewrite initStartupOptions_run.
    simpl. destruct override; reflexivity. }
  split; [apply initStartupOptions_returns|].
  split; [apply initStartupOptions_returns|].
  split; [|split; [|split]].
  - change (inr (optionMapOf (options (becca w2)))
            = (inr (optionMapOf (options (becca w1))) : Result OptionMap)).
    f_equal. rewrite Hw2. destruct override eqn:Ho; [|reflexivity].
    rewrite setOption_map. apply insert_id.
    rewrite Hw1. simpl. rewrite setOption_map. apply lookup_insert_eq.
  - rewrite Hw2. destruct override eqn:Ho; [|reflexivity].
    apply setOption_names_fixed.
    + assert (Hm : optionMapOf (options (becca w1)) !! "openNoteContexts"
                   = Some (openNoteContextsOverride process)).
      { rewrite Hw1. simpl. rewrite setOption_map. apply lookup_insert_eq. }
      rewrite optionMapOf_lookup in Hm.
      destruct (lookupByName "openNoteContexts" (options (becca w1)));
        [eauto|discriminate].
    + rewrite Hw1. simpl. apply setOption_sql_has.
  - rewrite Hw2. destruct override eqn:Ho; [|reflexivity].
    apply setOption_names_fixed.
    + assert (Hm : optionMapOf (options (becca w1)) !! "openNoteContexts"
                   = Some (openNoteContextsOverride process)).
      { rewrite Hw1. simpl. rewrite setOption_map. apply lookup_insert_eq. }
      rewrite optionMapOf_lookup in Hm.
      destruct (lookupByName "openNoteContexts" (options (becca w1)));
        [eauto|discriminate].
    + rewrite Hw1. simpl. apply setOption_sql_has.
  - intros n Hn. split.
    + rewrite Hw1. simpl. destruct override.
      * rewrite setOption_count; [apply initDefaults_count; exact Hn|].
        intros ->.
        assert (Hm : is_Some (optionMapOf (options (becca (execM (initDefaults table) w)))
                                !! "openNoteContexts")).
        { rewrite initDefaults_map. destruct Hn as [v ->]. eauto. }
        rewrite optionMapOf_lookup in Hm.
        destruct (lookupByName "openNoteContexts" _); [eauto|].
        destruct Hm; discriminate.
      * apply initDefaults_count. exact Hn.
    + intros Hne. subst w1 init. rewrite initStartupOptions_map. simpl.
      assert (H : optionMapOf (options (becca (execM (initDefaults table) w))) !! n
                  = optionMapOf (options (becca w)) !! n).
      { rewrite initDefaults_map. destruct Hn as [v ->]. reflexivity. }
      destruct override; [|exact H].
      rewrite lookup_insert_ne by congruence. exact H.
Qed.

(** C6: the derived default of [codeBlockTheme] is a function of the
    [theme] option in the map when defaulting runs: with [theme] seeded
    as [light] startup initialization resolves it to the light code
    block theme, with [theme] seeded as [dark] to the dark one, and the
    two values differ. *)
Theorem codeBlockTheme_follows_theme w :
  let m := optionMapOf (options (becca w)) in
  let m' := optionMapOf (options (becca (execM (initStartupOptions process
                                                  defaultKeyboardActions) w))) in
  m !! "codeBlockTheme" = None ->
  (m !! "theme" = Some "light" ->
   m' !! "codeBlockTheme" = Some "default:stackoverflow-light")
  /\ (m !! "theme" = Some "dark" ->
      m' !! "codeBlockTheme" = Some "default:stackoverflow-dark")
  /\ "default:stackoverflow-light" <> "default:stackoverflow-dark".
Proof.
  intros m m' Habs. subst m'.
  rewrite (initStartupOptions_codeBlockTheme w Habs). fold m.
  unfold codeBlockThemeDefault.
  split; [|split]; [intros Ht|intros Ht|discriminate].
  - rewrite decide_True by exact Ht. reflexivity.
  - rewrite decide_False by (rewrite Ht; discriminate). reflexivity.
Qed.

(** C8: the option map is read once, before anything is inserted, and
    every default is resolved against that snapshot.  For every table,
    one pass adds to the registry exactly the entities computed from the
    snapshot of the starting state, so a derived default never sees an
    option created earlier in the same pass: with [theme] created as
    [light] just before it, [codeBlockTheme] still resolves to the dark
    theme.  In startup initialization, when [theme] is absent from the
    snapshot, [codeBlockTheme] resolves to [default:stackoverflow-dark]. *)
Theorem initDefaults_resolves_on_snapshot (tbl : list DefaultOption.t) w :
  let m := optionMapOf (options (becca w)) in
  let w' := execM (initDefaults tbl) w in
  options (becca w') = (options (becca w) ++ newEntities (utcNow w) m tbl)%list
  /\ (forall d,
        d ∈ tbl -> m !! DefaultOption.name d = None ->
        exists o, o ∈ options (becca w')
                  /\ BOption.name o = DefaultOption.name d
                  /\ BOption.value o = resolve m d
                  /\ BOption.isSynced o = DefaultOption.isSynced d)
  /\ optionMapOf
       (options (becca (execM (initDefaults
          [literalOption "theme" "light" false;
           DefaultOption.mk "codeBlockTheme" (Function codeBlockThemeDefault) false])
          emptyWorld))) !! "codeBlockTheme" = Some "default:stackoverflow-dark"
  /\ (m !! "theme" = None -> m !! "codeBlockTheme" = None ->
      optionMapOf (options (becca (execM (initStartupOptions process
                                            defaultKeyboardActions) w)))
        !! "codeBlockTheme" = Some "default:stackoverflow-dark").
Proof.
  intros m w'. subst w'. unfold execM at 1 2. rewrite initDefaults_run. simpl.
  fold m. split; [reflexivity|]. split; [|split].
  - intros d Hd Hm. generalize (utcNow w).
    induction tbl as [|d' tbl' IH]; intros t; [inversion Hd|]. simpl.
    apply elem_of_cons in Hd as [<-|Hd].
    + rewrite decide_False by (rewrite Hm; intros [? ?]; discriminate).
      eexists. split; [apply elem_of_app; right; left|]. simpl. auto.
    + destruct (decide (is_Some (m !! DefaultOption.name d'))).
      * apply IH. exact Hd.
      * destruct (IH Hd (S t)) as (o & Ho & Hrest).
        exists o. split; [|exact Hrest].
        apply elem_of_app in Ho as [Ho|Ho]; apply elem_of_app; [left|right];
          [exact Ho|right; exact Ho].
  - vm_compute. reflexivity.
  - intros Ht Hc. rewrite (initStartupOptions_codeBlockTheme w Hc). fold m.
    unfold codeBlockThemeDefault.
    rewrite decide_False by (rewrite Ht; discriminate). reflexivity.
Qed.

End StartupProperties.

(** ** [parseInt] *)

Section ParseInt.

Local Open Scope Z_scope.

Ltac by_cases_on_char c :=
  destruct c as [[] [] [] [] [] [] [] []]; vm_compute; try reflexivity;
  try discriminate; try (intros; discriminate); auto.

Lemma radixDigit_decimal c :
  radixDigit 10 c
  = if isDecimalDigit c then Some (Z.of_nat (code c) - 48) else None.
Proof. by_cases_on_char c. Qed.

Lemma radixDigit_hex c :
  radixDigit 16 c = if isHexDigit c then Some (hexDigitValue c) else None.
Proof. by_cases_on_char c. Qed.

Lemma decimalDigit_not_space c :
  isDecimalDigit c = true ->
  isWhiteSpace c = false /\ Ascii.eqb c "-" = false /\ Ascii.eqb c "+" = false.
Proof. by_cases_on_char c. Qed.

(** Rounding an integer to a number never gives [NaN]. *)
Lemma iter_pos_invariant {A : Type} (P : A -> Prop) (f : A -> A) :
  (forall x, P x -> P (f x)) -> forall p x, P x -> P (SpecFloat.iter_pos f p x).
Proof.
  intros Hf p. induction p as [p IH|p IH|]; intros x Hx; simpl; auto.
Qed.

Lemma shr_1_nonneg mrs : 0 <= shr_m mrs -> 0 <= shr_m (shr_1 mrs).
Proof.
  destruct mrs as [m r s]. simpl.
  destruct m as [|[p|p|]|p]; simpl; intros H; lia.
Qed.

Lemma shr_nonneg mrs e n : 0 <= shr_m mrs -> 0 <= shr_m (fst (shr mrs e n)).
Proof.
  intros H. unfold shr. destruct n; simpl; try exact H.
  apply (iter_pos_invariant (fun x => 0 <= shr_m x)); [apply shr_1_nonneg|exact H].
Qed.

Lemma shr_fexp_nonneg prec emax m e l :
  0 <= m -> 0 <= shr_m (fst (shr_fexp prec emax m e l)).
Proof.
  intros H. unfold shr_fexp. apply shr_nonneg.
  destruct l as [|[]]; simpl; exact H.
Qed.

Lemma round_nearest_even_nonneg m l : 0 <= m -> 0 <= round_nearest_even m l.
Proof.
  intros H. unfold round_nearest_even.
  destruct l as [|[]]; try lia. destruct (Z.even m); lia.
Qed.

Lemma binary_round_aux_not_NaN prec emax sx mx ex lx :
  0 <= mx -> isNaN (binary_round_aux prec emax sx mx ex lx) = false.
Proof.
  intros H. unfold binary_round_aux.
  pose proof (shr_fexp_nonneg prec emax mx ex lx H) as H1.
  destruct (shr_fexp prec emax mx ex lx) as [mrs' e']. simpl in H1.
  pose proof (shr_fexp_nonneg prec emax _ e' loc_Exact
                (round_nearest_even_nonneg _ (loc_of_shr_record mrs') H1)) as H2.
  destruct (shr_fexp prec emax _ e' loc_Exact) as [mrs'' e'']. simpl in H2.
  destruct (shr_m mrs'') as [|m|m]; [reflexivity| |lia].
  destruct (e'' <=? emax - prec); reflexivity.
Qed.

Lemma number_of_Z_not_NaN z b : isNaN (number_of_Z z b) = false.
Proof.
  unfold number_of_Z, binary_normalize, binary_round.
  destruct z as [|p|p]; [reflexivity| |];
    destruct (shl_align _ _ _) as [mz ez];
    apply binary_round_aux_not_NaN; lia.
Qed.

(** Integers below 2^53 in magnitude are represented exactly. *)
Lemma digits2_pos_size p : digits2_pos p = Pos.size p.
Proof. induction p; simpl; congruence. Qed.

Lemma digits2_pos_bound p : Z.pos p < 2 ^ 53 -> Z.pos (digits2_pos p) <= 53.
Proof.
  intros H. rewrite digits2_pos_size.
  pose proof (Pos.size_le p) as Hle.
  apply Pos2Z.pos_le_pos in Hle. rewrite Pos2Z.inj_pow in Hle.
  change (Z.pos p~0) with (2 * Z.pos p) in Hle.
  destruct (Z.le_gt_cases (Z.pos (Pos.size p)) 53) as [Hok|Hbad]; [exact Hok|].
  exfalso.
  assert (Hpow : 2 ^ 54 <= 2 ^ Z.pos (Pos.size p)) by (apply Z.pow_le_mono_r; lia).
  change (2 ^ 54) with (2 * 2 ^ 53) in Hpow. lia.
Qed.

Lemma iter_xO_spec p d :
  Z.pos (Pos.iter xO p d) = Z.pos p * 2 ^ Z.pos d
  /\ Z.pos (digits2_pos (Pos.iter xO p d)) = Z.pos (digits2_pos p) + Z.pos d.
Proof.
  apply (Pos.iter_ind _ xO p (fun d q =>
    Z.pos q = Z.pos p * 2 ^ Z.pos d
    /\ Z.pos (digits2_pos q) = Z.pos (digits2_pos p) + Z.pos d)).
  - split; [simpl; lia|]. simpl. lia.
  - intros d' q [Hq Hd]. split.
    + rewrite Pos2Z.inj_xO, Hq, Pos2Z.inj_succ, Z.pow_succ_r by lia. ring.
    + simpl digits2_pos. rewrite Pos2Z.inj_succ, Hd, Pos2Z.inj_succ. lia.
Qed.

Lemma binary_round_exact s p :
  Z.pos p < 2 ^ 53 ->
  Z_of_number (binary_round 53 1024 s p 0) = Some (if s then Z.neg p else Z.pos p).
Proof.
  intros Hp. pose proof (digits2_pos_bound p Hp) as Hd.
  assert (Hd1 : 1 <= Z.pos (digits2_pos p)) by lia.
  unfold binary_round.
  assert (Hfexp : fexp 53 1024 (Z.pos (digits2_pos p) + 0) = Z.pos (digits2_pos p) - 53).
  { unfold fexp, emin. lia. }
  rewrite Hfexp. unfold shl_align.
  destruct (Z.pos (digits2_pos p) - 53 - 0) as [|q|d] eqn:He; try lia.
  - (* 53 digits: no alignment *)
    unfold binary_round_aux, shr_fexp. simpl Zdigits2.
    rewrite Hfexp. replace (Z.pos (digits2_pos p) - 53 - 0) with 0 by lia.
    simpl shr. simpl round_nearest_even. unfold shr_fexp. simpl Zdigits2.
    rewrite Hfexp. replace (Z.pos (digits2_pos p) - 53 - 0) with 0 by lia.
    simpl. destruct s; reflexivity.
  - destruct (iter_xO_spec p d) as [Hval Hdig].
    set (mz := Pos.iter xO p d) in *.
    set (ez := Z.pos (digits2_pos p) - 53) in *.
    assert (Hez : ez = Z.neg d) by lia.
    assert (Hf2 : fexp 53 1024 (Z.pos (digits2_pos mz) + ez) = ez).
    { unfold fexp, emin. lia. }
    unfold binary_round_aux, shr_fexp. simpl Zdigits2.
    rewrite Hf2, Z.sub_diag. simpl shr. simpl round_nearest_even.
    unfold shr_fexp. simpl Zdigits2. rewrite Hf2, Z.sub_diag. simpl shr.
    rewrite Hez. cbv beta iota delta [Z_of_number shr_m].
    change (Z.neg d <=? 1024 - 53) with true. cbv beta iota.
    assert (Hpow : 0 < 2 ^ Z.pos d) by (apply Z.pow_pos_nonneg; lia).
    rewrite Hval, Z.mod_mul by lia. simpl Z.eqb. cbv iota.
    destruct s.
    + f_equal.
      replace (Z.neg mz) with (- Z.pos p * 2 ^ Z.pos d)
        by (rewrite Z.mul_opp_l, <- Hval; reflexivity).
      rewrite Z.div_mul by lia. reflexivity.
    + f_equal. rewrite Z.div_mul by lia. reflexivity.
Qed.

Lemma number_of_Z_exact z b :
  Z.abs z < 2 ^ 53 -> Z_of_number (number_of_Z z b) = Some z.
Proof.
  intros H. unfold number_of_Z, binary_normalize.
  destruct z as [|p|p]; [reflexivity| |]; apply binary_round_exact; lia.
Qed.

(** Scanning *)
Lemma trimStart_app ws t :
  allChars isWhiteSpace ws = true -> startsWith isWhiteSpace t = false ->
  trimStart (ws +:+ t) = t.
Proof.
  intros Hws Ht. induction ws as [|c ws IH]; simpl in *.
  - destruct t as [|c t]; [reflexivity|]. simpl in *. rewrite Ht. reflexivity.
  - apply andb_prop in Hws as [-> Hws]. auto.
Qed.

Section Radix.

Variables (R : Z) (P : ascii -> bool) (dv : ascii -> Z).
Hypothesis radixDigit_P :
  forall c, radixDigit R c = if P c then Some (dv c) else None.

Lemma leadingDigits_app ds rest :
  allChars P ds = true -> startsWith P rest = false ->
  leadingDigits R (ds +:+ rest) = List.map dv (list_ascii_of_string ds).
Proof.
  intros Hds Hrest. induction ds as [|c ds IH]; simpl in *.
  - destruct rest as [|c rest]; [reflexivity|]. simpl in *.
    rewrite radixDigit_P, Hrest. reflexivity.
  - apply andb_prop in Hds as [Hc Hds].
    rewrite radixDigit_P, Hc, IH by exact Hds. reflexivity.
Qed.

Lemma fold_positional ds acc :
  fold_left (fun a d => a * R + d) (List.map dv (list_ascii_of_string ds)) acc
  = acc * R ^ Z.of_nat (String.length ds) + positional R dv ds.
Proof.
  revert acc; induction ds as [|c ds IH]; intros acc; simpl String.length.
  - simpl. lia.
  - simpl fold_left. rewrite IH. simpl positional.
    rewrite Nat2Z.inj_succ, Z.pow_succ_r by lia. ring.
Qed.

Lemma mathInt_positional ds :
  mathInt R (List.map dv (list_ascii_of_string ds)) = positional R dv ds.
Proof. unfold mathInt. rewrite fold_positional. lia. Qed.

End Radix.

Lemma splitSign_app sign body :
  In sign [""; "+"; "-"]%string -> startsWith isDecimalDigit body = true ->
  splitSign (sign +:+ body) = (signValue sign, body).
Proof.
  intros Hs Hb. simpl in Hs.
  destruct Hs as [<-|[<-|[<-|[]]]]; try reflexivity.
  destruct body as [|c body]; [discriminate|]. simpl in Hb.
  destruct (decimalDigit_not_space c Hb) as (_ & Hm & Hp).
  simpl. rewrite Hm, Hp. reflexivity.
Qed.

Lemma startsWith_sign_body sign body :
  In sign [""; "+"; "-"]%string -> startsWith isDecimalDigit body = true ->
  startsWith isWhiteSpace (sign +:+ body) = false.
Proof.
  intros Hs Hb. simpl in Hs.
  destruct Hs as [<-|[<-|[<-|[]]]]; try reflexivity.
  destruct body as [|c body]; [discriminate|]. simpl in *.
  apply (decimalDigit_not_space c Hb).
Qed.

Lemma substring_all t : String.substring 0 (String.length t) t = t.
Proof. induction t as [|a t IHt]; simpl; congruence. Qed.

Lemma splitRadix_hexPrefixed s :
  splitRadix s
  = if hexPrefixed s then (16, String.substring 2 (String.length s - 2) s)
    else (10, s).
Proof.
  unfold hexPrefixed.
  destruct s as [|c0 [|c1 r]]; try reflexivity.
  - simpl. destruct (Ascii.eqb c0 "0"); reflexivity.
  - assert (H0 : String.substring 0 0 r = ""%string) by (destruct r; reflexivity).
    simpl. rewrite H0, Nat.sub_0_r, substring_all. simpl.
    destruct (Ascii.eqb c0 "0"), (Ascii.eqb c1 "x"), (Ascii.eqb c1 "X");
      reflexivity.
Qed.

Lemma parseInt_unsigned ws sign body :
  allChars isWhiteSpace ws = true ->
  In sign [""; "+"; "-"]%string ->
  startsWith isDecimalDigit body = true ->
  parseInt (ws +:+ sign +:+ body) =
  let '(R, b) := splitRadix body in
  match leadingDigits R b with
  | [] => NaN
  | digits => number_of_Z (signValue sign * mathInt R digits) (signValue sign =? -1)
  end.
Proof.
  intros Hws Hs Hb. unfold parseInt.
  rewrite trimStart_app by (auto using startsWith_sign_body).
  rewrite splitSign_app by assumption. reflexivity.
Qed.

Lemma parseInt_decimal_prefix ws sign ds rest :
  allChars isWhiteSpace ws = true ->
  In sign [""; "+"; "-"]%string ->
  ds <> ""%string -> allChars isDecimalDigit ds = true ->
  startsWith isDecimalDigit rest = false ->
  hexPrefixed (ds +:+ rest) = false ->
  parseInt (ws +:+ sign +:+ ds +:+ rest)
  = number_of_Z (signValue sign * decimalValue ds) (signValue sign =? -1).
Proof.
  intros Hws Hs Hne Hds Hrest Hhex.
  rewrite parseInt_unsigned; try assumption.
  - rewrite splitRadix_hexPrefixed, Hhex.
    rewrite (leadingDigits_app 10 isDecimalDigit _ radixDigit_decimal) by assumption.
    rewrite <- (mathInt_positional 10 (fun c => Z.of_nat (code c) - 48)).
    destruct ds as [|c ds]; [congruence|]. reflexivity.
  - destruct ds as [|c ds]; [congruence|]. simpl in *.
    apply andb_prop in Hds as [Hc _]. exact Hc.
Qed.

Lemma parseInt_hex_prefix ws sign x hs rest :
  allChars isWhiteSpace ws = true ->
  In sign [""; "+"; "-"]%string ->
  In x ["x"; "X"]%string ->
  hs <> ""%string -> allChars isHexDigit hs = true ->
  startsWith isHexDigit rest = false ->
  parseInt (ws +:+ sign +:+ "0" +:+ x +:+ hs +:+ rest)
  = number_of_Z (signValue sign * hexValue hs) (signValue sign =? -1).
Proof.
  intros Hws Hs Hx Hne Hhs Hrest.
  rewrite parseInt_unsigned; try assumption; [|reflexivity].
  assert (Hsplit : splitRadix ("0" +:+ x +:+ hs +:+ rest) = (16, hs +:+ rest)).
  { simpl in Hx. destruct Hx as [<-|[<-|[]]]; reflexivity. }
  rewrite Hsplit.
  rewrite (leadingDigits_app 16 isHexDigit _ radixDigit_hex) by assumption.
  rewrite <- (mathInt_positional 16 hexDigitValue).
  destruct hs as [|c hs]; [congruence|]. reflexivity.
Qed.

Lemma parseInt_radix s :
  parseInt s = parseIntRadix (if hexPrefixed (unsignedPart s) then 16 else 10) s.
Proof.
  unfold parseInt, parseIntRadix, unsignedPart.
  destruct (splitSign (trimStart s)) as [sign u]. simpl snd.
  rewrite splitRadix_hexPrefixed.
  destruct (hexPrefixed u) eqn:Hu; reflexivity.
Qed.

Lemma getOption_inr name w val :
  evalM (getOption name) w = inr val -> getOption name w = (inr val, w).
Proof.
  unfold evalM. rewrite getOption_run.
  destruct (lookupByName name (stored w)) as [[i o]|]; simpl; congruence.
Qed.

Lemma getOptionInt_run name defaultValue w val :
  evalM (getOption name) w = inr val ->
  getOptionInt name defaultValue w =
  (if isNaN (parseInt val)
   then match defaultValue with
        | None => inl (ParseError val "integer" name)
        | Some d => inr d
        end
   else inr (parseInt val), w).
Proof.
  intros H. unfold getOptionInt, bind. rewrite (getOption_inr _ _ _ H).
  destruct (isNaN (parseInt val)); [destruct defaultValue|]; reflexivity.
Qed.

End ParseInt.

(** ** Properties of [getOptionInt] *)

(** C4, as stated, fails: the stored string is not always parsed in base
    10.  On the stored value [0x10] the code returns 16, where the base-10
    reading gives 0. *)
Lemma getOptionInt_base10_counterexample :
  ~ (forall (w : World) (name : string) (defaultValue : option Number),
       getOptionInt name defaultValue w = getOptionIntRadix 10 name defaultValue w).
Proof.
  intros H. specialize (H (storing "0x10") "minTocHeadings" None).
  vm_compute in H. discriminate H.
Qed.

(** C4, amended: for every existing option, [getOptionInt] parses the
    stored string as an integer in base 10, or in base 16 when the string,
    after leading white space and an optional sign, begins with [0x] or
    [0X]; if parsing fails it returns [defaultValue] when supplied and
    otherwise fails with the ParseError condition naming the raw value and
    the option.  On [42] it returns 42; on [abc] it fails with ParseError
    without a default and returns the default when one is supplied. *)
Theorem getOptionInt_radix (w : World) (name : string) (defaultValue : option Number)
    (val : string) :
  evalM (getOption name) w = inr val ->
  let R := if hexPrefixed (unsignedPart val) then 16%Z else 10%Z in
  getOptionInt name defaultValue w = getOptionIntRadix R name defaultValue w
  /\ (isNaN (parseIntRadix R val) = false ->
      getOptionInt name defaultValue w = (inr (parseIntRadix R val), w))
  /\ (isNaN (parseIntRadix R val) = true ->
      getOptionInt name defaultValue w
      = (match defaultValue with
         | Some d => inr d
         | None => inl (ParseError val "integer" name)
         end, w))
  /\ (val = "42" ->
      getOptionInt name defaultValue w = (inr (number_of_Z 42 false), w))
  /\ (val = "abc" ->
      getOptionInt name None w = (inl (ParseError "abc" "integer" name), w)
      /\ forall d, getOptionInt name (Some d) w = (inr d, w)).
Proof.
  intros Hval R.
  assert (Hrun := fun d => getOptionInt_run name d w val Hval).
  rewrite parseInt_radix in Hrun. fold R in Hrun.
  split; [|split; [|split; [|split]]].
  - rewrite Hrun. unfold getOptionIntRadix, bind.
    rewrite (getOption_inr _ _ _ Hval).
    destruct (isNaN (parseIntRadix R val)); [destruct defaultValue|]; reflexivity.
  - intros Hn. rewrite Hrun, Hn. reflexivity.
  - intros Hn. rewrite Hrun, Hn. destruct defaultValue; reflexivity.
  - intros ->. rewrite Hrun. reflexivity.
  - intros ->. split; [|intros d]; rewrite Hrun; reflexivity.
Qed.

Lemma getOptionInt_radix_witness :
  getOptionInt "minTocHeadings" None (storing "42")
  = (inr (number_of_Z 42 false), storing "42")
  /\ getOptionInt "minTocHeadings" None (storing "abc")
     = (inl (ParseError "abc" "integer" "minTocHeadings"), storing "abc")
  /\ getOptionInt "minTocHeadings" (Some (number_of_Z 7 false)) (storing "abc")
     = (inr (number_of_Z 7 false), storing "abc")
  /\ getOptionInt "minTocHeadings" None (storing "0x10")
     = (inr (number_of_Z 16 false), storing "0x10").
Proof.
  split; [|split; [|split]].
  - apply (proj1 (proj2 (proj2 (proj2
             (getOptionInt_radix (storing "42") "minTocHeadings" None "42" eq_refl))))).
    reflexivity.
  - apply (proj1 (proj2 (proj2 (proj2 (proj2
             (getOptionInt_radix (storing "abc") "minTocHeadings" None "abc" eq_refl))))
             eq_refl)).
  - apply (proj2 (proj2 (proj2 (proj2 (proj2
             (getOptionInt_radix (storing "abc") "minTocHeadings" None "abc" eq_refl))))
             eq_refl)).
  - apply (proj1 (proj2 (getOptionInt_radix (storing "0x10") "minTocHeadings" None
                           "0x10" eq_refl))).
    reflexivity.
Defined.

(** ** Instances of the startup properties *)

Lemma initStartupOptions_idempotent_witness :
  evalM getOptionMap
    (execM (initStartupOptions safeModeProcess sampleKeyboardActions)
       (execM (initStartupOptions safeModeProcess sampleKeyboardActions) sampleWorld))
  = evalM getOptionMap
      (execM (initStartupOptions safeModeProcess sampleKeyboardActions) sampleWorld)
  /\ countName "theme"
       (options (becca (execM (initStartupOptions safeModeProcess sampleKeyboardActions)
                          sampleWorld)))
     = countName "theme" (options (becca sampleWorld))
  /\ optionMapOf
       (options (becca (execM (initStartupOptions safeModeProcess sampleKeyboardActions)
                          sampleWorld))) !! "theme"
     = optionMapOf (options (becca sampleWorld)) !! "theme".
Proof.
  destruct (initStartupOptions_idempotent safeModeProcess sampleKeyboardActions sampleWorld)
    as (_ & _ & Hmap & _ & _ & Hpresent).
  split; [exact Hmap|].
  assert (Htheme : is_Some (optionMapOf (options (becca sampleWorld)) !! "theme"))
    by (exists "next"; vm_compute; reflexivity).
  destruct (Hpresent "theme" Htheme) as [Hcount Hvalue].
  split; [exact Hcount|]. apply Hvalue. discriminate.
Defined.

Lemma codeBlockTheme_follows_theme_witness :
  optionMapOf (options (becca (execM (initStartupOptions sampleProcess sampleKeyboardActions)
                                 lightWorld))) !! "codeBlockTheme"
  = Some "default:stackoverflow-light"
  /\ optionMapOf (options (becca (execM (initStartupOptions sampleProcess sampleKeyboardActions)
                                    darkWorld))) !! "codeBlockTheme"
     = Some "default:stackoverflow-dark".
Proof.
  split.
  - apply (proj1 (codeBlockTheme_follows_theme sampleProcess sampleKeyboardActions
                    lightWorld ltac:(vm_compute; reflexivity))).
    vm_compute; reflexivity.
  - apply (proj1 (proj2 (codeBlockTheme_follows_theme sampleProcess sampleKeyboardActions
                           darkWorld ltac:(vm_compute; reflexivity)))).
    vm_compute; reflexivity.
Defined.

Lemma initDefaults_resolves_on_snapshot_witness :
  (exists o,
     o ∈ options (becca (execM (initDefaults
            [literalOption "theme" "light" false;
             DefaultOption.mk "codeBlockTheme" (Function codeBlockThemeDefault) false])
            emptyWorld))
     /\ BOption.name o = "codeBlockTheme"
     /\ BOption.value o = "default:stackoverflow-dark"
     /\ BOption.isSynced o = false)
  /\ optionMapOf (options (becca (execM (initStartupOptions sampleProcess
                                           sampleKeyboardActions) emptyWorld)))
       !! "codeBlockTheme" = Some "default:stackoverflow-dark".
Proof.
  destruct (initDefaults_resolves_on_snapshot sampleProcess sampleKeyboardActions
              [literalOption "theme" "light" false;
               DefaultOption.mk "codeBlockTheme" (Function codeBlockThemeDefault) false]
              emptyWorld) as (_ & Hcreated & _ & _).
  destruct (initDefaults_resolves_on_snapshot sampleProcess sampleKeyboardActions
              [] emptyWorld) as (_ & _ & _ & Hstartup).
  split.
  - apply (Hcreated (DefaultOption.mk "codeBlockTheme" (Function codeBlockThemeDefault) false)).
    + right. left.
    + vm_compute; reflexivity.
  - apply Hstartup; vm_compute; reflexivity.
Defined.

(** ** Further properties of the option store *)

Section StoreFrame.

Implicit Types (w : World) (l : list BOption.t) (o : BOption.t).

Lemma lookupByName_insert_other l n n' i o o' :
  lookupByName n l = Some (i, o) -> BOption.name o' = n -> n' <> n ->
  lookupByName n' (<[i := o']> l) = lookupByName n' l.
Proof.
  intros H Hn Hne. apply lookupByName_Some in H as (_ & Hl & Ho).
  unfold lookupByName.
  rewrite (lastIndexOf_names (<[i := o']> l) l n')
    by (eapply names_insert; [eauto | congruence]).
  destruct (lastIndexOf n' l) as [j|] eqn:Hj; [|reflexivity].
  destruct (lastIndexOf_Some l n' j Hj) as (oj & Hoj & Hnj).
  rewrite list_lookup_insert_ne; [reflexivity|].
  intros ->. congruence.
Qed.

Lemma lookupByName_snoc_other l n' o :
  BOption.name o <> n' -> lookupByName n' (l ++ [o]) = lookupByName n' l.
Proof.
  intros Hne. rewrite lookupByName_app, lookupByName_cons. simpl.
  rewrite decide_False by exact Hne. reflexivity.
Qed.

Lemma lookupByName_sql_write_other o rows n' :
  BOption.name o <> n' ->
  lookupByName n' (sql_write o rows) = lookupByName n' rows.
Proof.
  intros Hne. unfold sql_write.
  destruct (lastIndexOf (BOption.name o) rows) as [i|] eqn:Hi.
  - destruct (lastIndexOf_Some _ _ _ Hi) as (o0 & Ho0 & Hn0).
    apply (lookupByName_insert_other rows (BOption.name o) n' i o0);
      [|reflexivity|congruence].
    unfold lookupByName. rewrite Hi, Ho0. reflexivity.
  - apply lookupByName_snoc_other. exact Hne.
Qed.

Lemma setOption_stored_other name value w n' :
  n' <> name ->
  lookupByName n' (stored (execM (setOption name value) w))
  = lookupByName n' (stored w).
Proof.
  intros Hne. unfold execM, stored.
  destruct (lookupByName name (options (becca w))) as [[i o]|] eqn:H.
  - rewrite (setOption_update _ _ _ _ _ H). simpl.
    destruct (loaded (becca w)).
    + eapply lookupByName_insert_other; eauto.
    + apply lookupByName_sql_write_other. simpl. congruence.
  - rewrite (setOption_create _ _ _ H). simpl.
    destruct (loaded (becca w)); apply lookupByName_snoc_other; simpl; congruence.
Qed.

Lemma createOption_stored name value isSynced w :
  stored (execM (createOption name value isSynced) w)
  = (stored w ++ [BOption.mk name value isSynced (utcNow w)])%list.
Proof.
  unfold execM, stored, createOption, BOption_new_save; simpl.
  destruct (loaded (becca w)); reflexivity.
Qed.

(** X1: a created option reads back.  After [createOption(name, value,
    isSynced)] on a store that has no option of that name, [getOption] and
    [getOptionOrNull] return [value], the option map maps [name] to
    [value], exactly one option of that name exists, and every other name
    reads as before. *)
Theorem createOption_getOption_roundtrip (w : World) (name value : string)
    (isSynced : bool) :
  (forall o, o ∈ stored w -> BOption.name o <> name) ->
  (forall o, o ∈ options (becca w) -> BOption.name o <> name) ->
  let w' := execM (createOption name value isSynced) w in
  evalM (getOption name) w' = inr value
  /\ evalM (getOptionOrNull name) w' = inr (Some value)
  /\ optionMapOf (options (becca w')) !! name = Some value
  /\ countName name (options (becca w')) = 1
  /\ (forall n', n' <> name ->
        evalM (getOptionOrNull n') w' = evalM (getOptionOrNull n') w
        /\ optionMapOf (options (becca w')) !! n'
           = optionMapOf (options (becca w)) !! n').
Proof.
  intros Hstored Hreg w'.
  assert (Hs : stored w' = (stored w ++ [BOption.mk name value isSynced (utcNow w)])%list)
    by apply createOption_stored.
  assert (Ho : options (becca w')
               = (options (becca w) ++ [BOption.mk name value isSynced (utcNow w)])%list)
    by reflexivity.
  split; [|split; [|split; [|split]]].
  - unfold evalM. rewrite getOption_run, Hs.
    rewrite (lookupByName_snoc _ (BOption.mk name value isSynced (utcNow w))).
    reflexivity.
  - unfold evalM. rewrite getOptionOrNull_run, Hs.
    rewrite (lookupByName_snoc _ (BOption.mk name value isSynced (utcNow w))).
    reflexivity.
  - rewrite Ho, optionMapOf_snoc. apply lookup_insert_eq.
  - rewrite Ho, countName_app, countName_one, countName_zero by exact Hreg.
    reflexivity.
  - intros n' Hne. split.
    + unfold evalM. rewrite !getOptionOrNull_run, Hs.
      rewrite lookupByName_snoc_other by (simpl; congruence). reflexivity.
    + rewrite Ho, optionMapOf_snoc. apply lookup_insert_ne. simpl. congruence.
Qed.

Lemma createOption_getOption_roundtrip_witness :
  evalM (getOption "locale") (execM (createOption "locale" "fr" true) sampleWorld)
  = inr "fr"
  /\ evalM (getOptionOrNull "theme") (execM (createOption "locale" "fr" true) sampleWorld)
     = evalM (getOptionOrNull "theme") sampleWorld.
Proof.
  assert (Habs : forall o, o ∈ stored sampleWorld -> BOption.name o <> "locale").
  { intros o Ho. simpl in Ho.
    repeat (apply elem_of_cons in Ho as [->|Ho]; [discriminate|]).
    inversion Ho. }
  destruct (createOption_getOption_roundtrip sampleWorld "locale" "fr" true Habs Habs)
    as (Hget & _ & _ & _ & Hother).
  split; [exact Hget|]. apply Hother. discriminate.
Defined.

(** X2: [setOption] touches one name only.  For every store, whether or
    not the registry is loaded and whether [setOption] updates or creates,
    every other name reads as before through [getOptionOrNull] and
    [getOption], and keeps its entry in the option map. *)
Theorem setOption_frame (w : World) (name value n' : string) :
  n' <> name ->
  let w' := execM (setOption name value) w in
  evalM (getOptionOrNull n') w' = evalM (getOptionOrNull n') w
  /\ evalM (getOption n') w' = evalM (getOption n') w
  /\ optionMapOf (options (becca w')) !! n' = optionMapOf (options (becca w)) !! n'.
Proof.
  intros Hne w'. split; [|split].
  - unfold evalM. rewrite !getOptionOrNull_run.
    subst w'. rewrite setOption_stored_other by exact Hne. reflexivity.
  - unfold evalM. rewrite !getOption_run.
    subst w'. rewrite setOption_stored_other by exact Hne.
    destruct (lookupByName n' (stored w)) as [[i o]|]; reflexivity.
  - subst w'. rewrite setOption_map. apply lookup_insert_ne. congruence.
Qed.

Lemma setOption_frame_witness :
  evalM (getOption "theme") (execM (setOption "minTocHeadings" "7") sampleWorld)
  = inr "next"
  /\ evalM (getOption "theme") (execM (setOption "locale" "fr") unloadedWorld)
     = inr "next".
Proof.
  split.
  - apply (proj1 (proj2 (setOption_frame sampleWorld "minTocHeadings" "7" "theme"
                           ltac:(discriminate)))).
  - apply (proj1 (proj2 (setOption_frame unloadedWorld "locale" "fr" "theme"
                           ltac:(discriminate)))).
Defined.

(** X3: booleans survive the store.  Writing the literal for a boolean with
    [setOption] and reading it with [getOptionBool] gives the boolean back,
    for every store and name. *)
Theorem setOption_getOptionBool_roundtrip (w : World) (name : string) (b : bool) :
  evalM (getOptionBool name)
        (execM (setOption name (if b then "true" else "false")) w)
  = inr b.
Proof.
  destruct (setOption_stored name (if b then "true" else "false") w)
    as (i & o & H & Hv).
  unfold evalM, getOptionBool, bind. rewrite getOption_run, H, Hv.
  destruct b; reflexivity.
Qed.

(** X4: on a loaded registry the option map and the accessors agree: for
    every name, the entry of [getOptionMap] is what [getOptionOrNull]
    returns, and [getOption] fails exactly on the names the map lacks.
    Reading changes nothing.  While the registry is not loaded the two can
    differ: the map is built from the registry, the accessors read the
    table. *)
Theorem getOptionMap_agrees_when_loaded (w : World) (name : string) :
  (loaded (becca w) = true ->
   exists m, getOptionMap w = (inr m, w)
             /\ evalM (getOptionOrNull name) w = inr (m !! name)
             /\ (m !! name = None <-> evalM (getOption name) w = inl (NotFound name)))
  /\ (exists m, getOptionMap unloadedWorld = (inr m, unloadedWorld)
                /\ m !! "theme" = None
                /\ evalM (getOptionOrNull "theme") unloadedWorld = inr (Some "next")).
Proof.
  split.
  - intros Hl. exists (optionMapOf (options (becca w))).
    split; [reflexivity|].
    unfold evalM. rewrite getOptionOrNull_run, getOption_run, optionMapOf_lookup.
    unfold stored. rewrite Hl.
    destruct (lookupByName name (options (becca w))) as [[i o]|]; simpl.
    + split; [reflexivity|]. split; discriminate.
    + split; [reflexivity|]. split; reflexivity.
  - exists (optionMapOf (options (becca unloadedWorld))).
    split; [reflexivity|]. split; reflexivity.
Qed.

Lemma getOptionMap_agrees_when_loaded_witness :
  exists m, getOptionMap sampleWorld = (inr m, sampleWorld)
            /\ evalM (getOptionOrNull "theme") sampleWorld = inr (m !! "theme").
Proof.
  destruct (proj1 (getOptionMap_agrees_when_loaded sampleWorld "theme") eq_refl)
    as (m & Hm & Hget & _).
  exists m. split; assumption.
Defined.

End StoreFrame.

(** ** Further properties of the default initializer *)

Section DefaultTable.

Implicit Types (w : World) (m : OptionMap) (tbl : list DefaultOption.t).

Lemma prefix_append p s : String.prefix p (p +:+ s) = true.
Proof.
  induction p as [|a p IH]; simpl; [destruct s; reflexivity|].
  destruct (ascii_dec a a) as [_|Hn]; [exact IH|congruence].
Qed.

(** No static default is called [openNoteContexts] or named like a
    keyboard shortcut option, and no two share a name. *)
Lemma defaultOptions_names (process : Process) :
  NoDup (List.map DefaultOption.name (defaultOptions process))
  /\ forall d, d ∈ defaultOptions process ->
               DefaultOption.name d <> "openNoteContexts"
               /\ String.prefix "keyboardShortcuts" (DefaultOption.name d) = false.
Proof.
  split.
  - apply (bool_decide_unpack (NoDup (List.map DefaultOption.name (defaultOptions process)))).
    vm_compute. exact I.
  - assert (H : forallb (fun d => negb (String.eqb (DefaultOption.name d) "openNoteContexts")
                                  && negb (String.prefix "keyboardShortcuts"
                                             (DefaultOption.name d)))
                        (defaultOptions process) = true)
      by (vm_compute; reflexivity).
    intros d Hd. apply list_elem_of_In in Hd.
    pose proof (proj1 (forallb_forall _ _) H d Hd) as Hb.
    apply andb_prop in Hb as [H1 H2].
    apply negb_true_iff in H1, H2. split; [|exact H2].
    apply String.eqb_neq. exact H1.
Qed.

Lemma lastDefault_NoDup n tbl d :
  NoDup (List.map DefaultOption.name tbl) -> d ∈ tbl -> DefaultOption.name d = n ->
  lastDefault n tbl = Some d.
Proof.
  induction tbl as [|d' tbl IH]; intros Hnd Hd Hn; [inversion Hd|].
  simpl in Hnd. apply NoDup_cons in Hnd as [Hnotin Hnd]. simpl.
  apply elem_of_cons in Hd as [->|Hd].
  - rewrite lastDefault_absent.
    + rewrite decide_True by exact Hn. reflexivity.
    + intros d0 Hd0 Heq. apply Hnotin. rewrite Hn, <- Heq.
      apply list_elem_of_In, in_map, list_elem_of_In. exact Hd0.
  - rewrite (IH Hnd Hd Hn). reflexivity.
Qed.

Lemma keyboard_name_not_static (process : Process) kb dk d :
  dk ∈ getKeyboardDefaultOptions kb -> d ∈ defaultOptions process ->
  DefaultOption.name dk <> DefaultOption.name d.
Proof.
  intros Hk Hd Heq.
  destruct (getKeyboardDefaultOptions_name kb dk Hk) as [s Hs].
  destruct (defaultOptions_names process) as [_ Hstatic].
  destruct (Hstatic d Hd) as [_ Hp].
  rewrite <- Heq, Hs, prefix_append in Hp. discriminate.
Qed.

Lemma lastDefault_static (process : Process) kb d :
  d ∈ defaultOptions process ->
  lastDefault (DefaultOption.name d) (allDefaultOptions process kb) = Some d.
Proof.
  intros Hd. unfold allDefaultOptions.
  rewrite lastDefault_app, lastDefault_absent.
  - apply lastDefault_NoDup; [apply defaultOptions_names|exact Hd|reflexivity].
  - intros dk Hk. eapply keyboard_name_not_static; eauto.
Qed.

Lemma lastDefault_openNoteContexts (process : Process) kb :
  lastDefault "openNoteContexts" (allDefaultOptions process kb) = None.
Proof.
  apply lastDefault_absent. intros d Hd. unfold allDefaultOptions in Hd.
  apply elem_of_app in Hd as [Hd|Hd].
  - apply (defaultOptions_names process). exact Hd.
  - destruct (getKeyboardDefaultOptions_name kb d Hd) as [s ->]. discriminate.
Qed.

End DefaultTable.

Section StartupExtras.

Variable process : Process.
Variable defaultKeyboardActions : list KeyboardShortcut.

Let table : list DefaultOption.t :=
  allDefaultOptions process defaultKeyboardActions.

Let init : M unit := initStartupOptions process defaultKeyboardActions.

Implicit Types (w : World) (m : OptionMap) (tbl : list DefaultOption.t).

Lemma countDefault_cons n d tbl :
  countDefault n (d :: tbl)
  = (if decide (DefaultOption.name d = n) then 1 else 0) + countDefault n tbl.
Proof.
  unfold countDefault; simpl.
  destruct (String.eqb_spec (DefaultOption.name d) n) as [He|Hne].
  - rewrite decide_True by exact He. reflexivity.
  - rewrite decide_False by exact Hne. reflexivity.
Qed.

Lemma countName_cons n o l :
  countName n (o :: l)
  = (if decide (BOption.name o = n) then 1 else 0) + countName n l.
Proof.
  unfold countName; simpl.
  destruct (String.eqb_spec (BOption.name o) n) as [He|Hne].
  - rewrite decide_True by exact He. reflexivity.
  - rewrite decide_False by exact Hne. reflexivity.
Qed.

Lemma newEntities_count t m tbl n :
  countName n (newEntities t m tbl)
  = if decide (is_Some (m !! n)) then 0 else countDefault n tbl.
Proof.
  revert t; induction tbl as [|d tbl IH]; intros t; simpl.
  - case_decide; reflexivity.
  - rewrite countDefault_cons.
    destruct (decide (is_Some (m !! DefaultOption.name d))) as [Hin|Hout].
    + rewrite IH. case_decide as Hn; [reflexivity|].
      rewrite decide_False; [reflexivity|]. intros <-. contradiction.
    + rewrite countName_cons, IH. simpl.
      case_decide as Hn; [|reflexivity].
      rewrite decide_False; [reflexivity|]. intros He. rewrite He in Hout.
      contradiction.
Qed.

Lemma newEntities_elem t m tbl d :
  d ∈ tbl -> m !! DefaultOption.name d = None ->
  exists t', BOption.mk (DefaultOption.name d) (resolve m d) (DefaultOption.isSynced d) t'
             ∈ newEntities t m tbl.
Proof.
  revert t; induction tbl as [|d' tbl IH]; intros t Hd Hm; [inversion Hd|]. simpl.
  apply elem_of_cons in Hd as [<-|Hd].
  - rewrite decide_False by (rewrite Hm; intros [? ?]; discriminate).
    exists t. left.
  - destruct (decide (is_Some (m !! DefaultOption.name d'))).
    + apply IH; assumption.
    + destruct (IH (S t) Hd Hm) as [t' Ht']. exists t'. right. exact Ht'.
Qed.

Lemma elem_of_insert_other (l : list BOption.t) i o oi x :
  o ∈ l -> l !! i = Some oi -> BOption.name oi <> BOption.name o -> o ∈ <[i := x]> l.
Proof.
  intros Ho Hi Hne. apply list_elem_of_lookup in Ho as [j Hj].
  apply list_elem_of_lookup. exists j.
  rewrite list_lookup_insert_ne; [exact Hj|]. intros ->. congruence.
Qed.

Lemma setOption_keeps_entity name value w o :
  o ∈ options (becca w) -> BOption.name o <> name ->
  o ∈ options (becca (execM (setOption name value) w)).
Proof.
  intros Ho Hne. unfold execM.
  destruct (lookupByName name (options (becca w))) as [[i oi]|] eqn:H.
  - rewrite (setOption_update _ _ _ _ _ H). simpl.
    apply lookupByName_Some in H as (_ & Hi & Hn).
    eapply elem_of_insert_other; eauto. congruence.
  - rewrite (setOption_create _ _ _ H). simpl. apply elem_of_app. left. exact Ho.
Qed.

Lemma init_world w :
  execM init w =
  let wa := execM (initDefaults table) w in
  if overrideActive process
  then execM (setOption "openNoteContexts" (openNoteContextsOverride process)) wa
  else wa.
Proof.
  unfold init, execM at 1. rewrite initStartupOptions_run. fold table.
  unfold overrideActive. simpl.
  destruct (truthy (TRILIUM_START_NOTE_ID process) || truthy (TRILIUM_SAFE_MODE process));
    reflexivity.
Qed.

Lemma init_map w n :
  n <> "openNoteContexts" ->
  optionMapOf (options (becca (execM init w))) !! n =
  match optionMapOf (options (becca w)) !! n with
  | Some v => Some v
  | None => resolve (optionMapOf (options (becca w))) <$> lastDefault n table
  end.
Proof.
  intros Hne. rewrite init_world. cbv zeta.
  destruct (overrideActive process).
  - rewrite setOption_map, lookup_insert_ne by congruence. apply initDefaults_map.
  - apply initDefaults_map.
Qed.

Lemma countDefault_app n t1 t2 :
  countDefault n (t1 ++ t2) = countDefault n t1 + countDefault n t2.
Proof. unfold countDefault. rewrite List.filter_app, length_app. reflexivity. Qed.

Lemma countDefault_zero n tbl :
  (forall d, d ∈ tbl -> DefaultOption.name d <> n) -> countDefault n tbl = 0.
Proof.
  induction tbl as [|d tbl IH]; intros H; [reflexivity|].
  rewrite countDefault_cons, IH by (intros d' Hd'; apply H; right; exact Hd').
  rewrite decide_False; [reflexivity|]. apply H. left.
Qed.

Lemma countDefault_NoDup n tbl d :
  NoDup (List.map DefaultOption.name tbl) -> d ∈ tbl -> DefaultOption.name d = n ->
  countDefault n tbl = 1.
Proof.
  induction tbl as [|d' tbl IH]; intros Hnd Hd Hn; [inversion Hd|].
  simpl in Hnd. apply NoDup_cons in Hnd as [Hnotin Hnd].
  rewrite countDefault_cons.
  apply elem_of_cons in Hd as [->|Hd].
  - rewrite decide_True by exact Hn. rewrite countDefault_zero; [reflexivity|].
    intros d0 Hd0 Heq. apply Hnotin. rewrite Hn, <- Heq.
    apply list_elem_of_In, in_map, list_elem_of_In. exact Hd0.
  - rewrite (IH Hnd Hd Hn). rewrite decide_False; [reflexivity|].
    intros Heq. apply Hnotin. rewrite Heq, <- Hn.
    apply list_elem_of_In, in_map, list_elem_of_In. exact Hd.
Qed.

Lemma countDefault_static d :
  d ∈ defaultOptions process -> countDefault (DefaultOption.name d) table = 1.
Proof.
  intros Hd. unfold table, allDefaultOptions.
  rewrite countDefault_app.
  rewrite (countDefault_NoDup _ (defaultOptions process) d);
    [|apply defaultOptions_names|exact Hd|reflexivity].
  rewrite countDefault_zero; [reflexivity|].
  intros dk Hk. eapply keyboard_name_not_static; eauto.
Qed.

Lemma initDefaults_options tbl w :
  options (becca (execM (initDefaults tbl) w))
  = (options (becca w)
     ++ newEntities (utcNow w) (optionMapOf (options (becca w))) tbl)%list.
Proof. unfold execM. rewrite initDefaults_run. reflexivity. Qed.

Lemma initDefaults_stored tbl w :
  stored (execM (initDefaults tbl) w)
  = (stored w ++ newEntities (utcNow w) (optionMapOf (options (becca w))) tbl)%list.
Proof.
  unfold execM. rewrite initDefaults_run. unfold stored, addEntities; simpl.
  destruct (loaded (becca w)); reflexivity.
Qed.

Lemma absent_in_map_registry w n :
  optionMapOf (options (becca w)) !! n = None <->
  (forall o, o ∈ options (becca w) -> BOption.name o <> n).
Proof.
  rewrite optionMapOf_lookup, <- lookupByName_None.
  destruct (lookupByName n (options (becca w))) as [[i o]|]; simpl;
    split; congruence.
Qed.

(** X5: every static default is applied as the table says.  For every
    descriptor of [defaultOptions], after startup initialization the
    option map holds the value the option had before or, when it was
    absent, the descriptor's value resolved on the starting map; in that
    case an entity with the descriptor's sync flag has been created, and
    it is the only option of that name. *)
Theorem initStartupOptions_static_default w d :
  d ∈ defaultOptions process ->
  let m := optionMapOf (options (becca w)) in
  let w' := execM (initStartupOptions process defaultKeyboardActions) w in
  optionMapOf (options (becca w')) !! DefaultOption.name d
  = Some (default (resolve m d) (m !! DefaultOption.name d))
  /\ (m !! DefaultOption.name d = None ->
      countName (DefaultOption.name d) (options (becca w')) = 1
      /\ exists o, o ∈ options (becca w')
                   /\ BOption.name o = DefaultOption.name d
                   /\ BOption.value o = resolve m d
                   /\ BOption.isSynced o = DefaultOption.isSynced d).
Proof.
  intros Hd m w'. fold init in w'.
  destruct (defaultOptions_names process) as [Hnd Hstatic].
  destruct (Hstatic d Hd) as [Hone Hpre].
  split.
  - subst w'. rewrite init_map by exact Hone. fold m.
    unfold table. rewrite lastDefault_static by exact Hd.
    destruct (m !! DefaultOption.name d); reflexivity.
  - intros Hm.
    assert (Hreg := proj1 (absent_in_map_registry w _) Hm).
    assert (Hin : d ∈ table)
      by (unfold table, allDefaultOptions; apply elem_of_app; left; exact Hd).
    destruct (newEntities_elem (utcNow w) m table d Hin Hm) as [t' Ht'].
    subst w'. rewrite init_world. cbv zeta.
    destruct (overrideActive process).
    + split.
      * rewrite setOption_count by (intros He; contradiction).
        rewrite initDefaults_options, countName_app, newEntities_count.
        fold m. rewrite decide_False by (rewrite Hm; intros [? ?]; discriminate).
        rewrite countName_zero by exact Hreg. apply countDefault_static. exact Hd.
      * exists (BOption.mk (DefaultOption.name d) (resolve m d)
                           (DefaultOption.isSynced d) t').
        split; [|simpl; auto].
        apply setOption_keeps_entity; [|exact Hone].
        rewrite initDefaults_options. apply elem_of_app. right. exact Ht'.
    + split.
      * rewrite initDefaults_options, countName_app, newEntities_count.
        fold m. rewrite decide_False by (rewrite Hm; intros [? ?]; discriminate).
        rewrite countName_zero by exact Hreg. apply countDefault_static. exact Hd.
      * exists (BOption.mk (DefaultOption.name d) (resolve m d)
                           (DefaultOption.isSynced d) t').
        split; [|simpl; auto].
        rewrite initDefaults_options. apply elem_of_app. right. exact Ht'.
Qed.

(** X6: the environment override of [openNoteContexts].  When
    [TRILIUM_START_NOTE_ID] or [TRILIUM_SAFE_MODE] is set to a non-empty
    string, after startup initialization [openNoteContexts] holds the
    serialized single context, with the start note or [root] as its path,
    whatever it held before, in the option map and through [getOption].
    When neither is set, startup initialization leaves [openNoteContexts]
    as it was: no default creates it. *)
Theorem initStartupOptions_override w :
  let w' := execM (initStartupOptions process defaultKeyboardActions) w in
  (overrideActive process = true ->
   optionMapOf (options (becca w')) !! "openNoteContexts"
   = Some (openNoteContextsOverride process)
   /\ evalM (getOption "openNoteContexts") w' = inr (openNoteContextsOverride process))
  /\ (overrideActive process = false ->
      optionMapOf (options (becca w')) !! "openNoteContexts"
      = optionMapOf (options (becca w)) !! "openNoteContexts"
      /\ countName "openNoteContexts" (options (becca w'))
         = countName "openNoteContexts" (options (becca w))
      /\ evalM (getOption "openNoteContexts") w' = evalM (getOption "openNoteContexts") w).
Proof.
  intros w'. fold init in w'. subst w'. rewrite init_world. cbv zeta.
  split; intros Ho; rewrite Ho.
  - split.
    + rewrite setOption_map. apply lookup_insert_eq.
    + destruct (setOption_stored "openNoteContexts" (openNoteContextsOverride process)
                  (execM (initDefaults table) w)) as (i & o & H & Hv).
      unfold evalM. rewrite getOption_run, H, Hv. reflexivity.
  - assert (Hcount : countName "openNoteContexts"
                       (newEntities (utcNow w) (optionMapOf (options (becca w))) table) = 0).
    { rewrite newEntities_count. case_decide; [reflexivity|].
      apply countDefault_zero. intros d Hd Hn.
      pose proof (lastDefault_elem _ _ d Hd Hn) as [x Hx].
      unfold table in Hx. rewrite lastDefault_openNoteContexts in Hx. discriminate. }
    split; [|split].
    + rewrite initDefaults_map. unfold table.
      rewrite lastDefault_openNoteContexts.
      destruct (optionMapOf (options (becca w)) !! "openNoteContexts"); reflexivity.
    + rewrite initDefaults_options, countName_app, Hcount. lia.
    + unfold evalM. rewrite !getOption_run.
      rewrite initDefaults_stored, lookupByName_app.
      assert (Hnone : lookupByName "openNoteContexts"
                        (newEntities (utcNow w) (optionMapOf (options (becca w))) table)
                      = None).
      { apply lookupByName_None. intros o Hin Hn.
        pose proof (countName_elem _ _ o Hin Hn) as Hge. lia. }
      rewrite Hnone.
      destruct (lookupByName "openNoteContexts" (stored w)) as [[i o]|]; reflexivity.
Qed.

End StartupExtras.

Lemma initStartupOptions_override_witness :
  evalM (getOption "openNoteContexts")
        (execM (initStartupOptions safeModeProcess sampleKeyboardActions) sampleWorld)
  = inr (openNoteContextsOverride safeModeProcess)
  /\ evalM (getOption "openNoteContexts")
           (execM (initStartupOptions sampleProcess sampleKeyboardActions) sampleWorld)
     = evalM (getOption "openNoteContexts") sampleWorld.
Proof.
  split.
  - apply (proj1 (initStartupOptions_override safeModeProcess sampleKeyboardActions
                    sampleWorld) eq_refl).
  - apply (proj2 (initStartupOptions_override sampleProcess sampleKeyboardActions
                    sampleWorld) eq_refl).
Defined.

Lemma initStartupOptions_static_default_witness :
  optionMapOf (options (becca (execM (initStartupOptions sampleProcess sampleKeyboardActions)
                                 sampleWorld))) !! "revisionSnapshotTimeInterval"
  = Some "600"
  /\ countName "revisionSnapshotTimeInterval"
       (options (becca (execM (initStartupOptions sampleProcess sampleKeyboardActions)
                          sampleWorld))) = 1.
Proof.
  assert (Hd : literalOption "revisionSnapshotTimeInterval" "600" true
               ∈ defaultOptions sampleProcess) by left.
  destruct (initStartupOptions_static_default sampleProcess sampleKeyboardActions
              sampleWorld _ Hd) as [Hmap Habsent].
  assert (Hm : optionMapOf (options (becca sampleWorld))
                 !! "revisionSnapshotTimeInterval" = None)
    by (vm_compute; reflexivity).
  split.
  - refine (eq_trans Hmap _).
    change (DefaultOption.name (literalOption "revisionSnapshotTimeInterval" "600" true))
      with "revisionSnapshotTimeInterval".
    rewrite Hm. reflexivity.
  - apply Habsent. exact Hm.
Defined.

Section KeyboardDefaults.

Variable process : Process.
Variable defaultKeyboardActions : list KeyboardShortcut.

Implicit Types (w : World) (ka : KeyboardShortcut).

Lemma toUpperCase_shape (c : ascii) (u : string) :
  toUpperCase c = Some u -> u = "SS" \/ exists c', u = String c' EmptyString.
Proof.
  unfold toUpperCase.
  repeat match goal with
         | |- context [if ?b then _ else _] => destruct b
         end;
    intros H; inversion H; eauto.
Qed.

Lemma getKeyboardDefaultOptions_elem d :
  d ∈ getKeyboardDefaultOptions defaultKeyboardActions <->
  exists ka, ka ∈ defaultKeyboardActions /\ truthy (actionName ka) = true
             /\ d = keyboardDescriptor ka.
Proof.
  unfold getKeyboardDefaultOptions. rewrite list_elem_of_In, in_map_iff.
  split.
  - intros (ka & <- & Hin). apply filter_In in Hin as [Hin Ht].
    exists ka. rewrite list_elem_of_In. auto.
  - intros (ka & Hin & Ht & ->). exists ka. split; [reflexivity|].
    apply filter_In. rewrite <- list_elem_of_In. auto.
Qed.

(** X7: keyboard shortcut defaults.  Every keyboard action whose name is
    not empty, and whose first code unit has an upper case within the code
    units below 256, gets an option called [keyboardShortcuts] followed by
    the name with its first character in upper case (one character, or
    [SS] for a sharp s): after startup initialization it exists, it keeps
    a value it had before, and when it was absent (and the actions give
    distinct option names) it holds the serialized default shortcuts of
    the action.  Every descriptor generated this way is local (not synced)
    and comes from an action with a non-empty name: separators yield
    none. *)
Theorem initStartupOptions_keyboard_default w ka c rest u :
  ka ∈ defaultKeyboardActions -> actionName ka = Some (String c rest) ->
  toUpperCase c = Some u ->
  let n := keyboardOptionName (String c rest) in
  let m := optionMapOf (options (becca w)) in
  let m' := optionMapOf (options (becca (execM (initStartupOptions process
                                                  defaultKeyboardActions) w))) in
  (n = "keyboardShortcuts" +:+ u +:+ rest
   /\ (u = "SS" \/ exists c', u = String c' EmptyString))
  /\ is_Some (m' !! n)
  /\ (forall v, m !! n = Some v -> m' !! n = Some v)
  /\ (m !! n = None ->
      NoDup (List.map DefaultOption.name (getKeyboardDefaultOptions defaultKeyboardActions)) ->
      m' !! n = Some (JSON_stringify (JArray (List.map JString (defaultShortcuts ka)))))
  /\ (forall d, d ∈ getKeyboardDefaultOptions defaultKeyboardActions ->
                DefaultOption.isSynced d = false
                /\ exists ka', ka' ∈ defaultKeyboardActions
                               /\ truthy (actionName ka') = true
                               /\ d = keyboardDescriptor ka').
Proof.
  intros Hka Ha Hu n m m'.
  assert (Hd : keyboardDescriptor ka ∈ getKeyboardDefaultOptions defaultKeyboardActions).
  { apply getKeyboardDefaultOptions_elem. exists ka. split; [exact Hka|].
    split; [|reflexivity]. rewrite Ha. reflexivity. }
  assert (Hname : DefaultOption.name (keyboardDescriptor ka) = n)
    by (unfold keyboardDescriptor; simpl; rewrite Ha; reflexivity).
  assert (Hpre : exists s, n = "keyboardShortcuts" +:+ s).
  { destruct (getKeyboardDefaultOptions_name _ _ Hd) as [s Hs].
    exists s. rewrite <- Hname. exact Hs. }
  assert (Hone : n <> "openNoteContexts")
    by (destruct Hpre as [s ->]; discriminate).
  assert (Hin : keyboardDescriptor ka ∈ allDefaultOptions process defaultKeyboardActions)
    by (unfold allDefaultOptions; apply elem_of_app; right; exact Hd).
  assert (Hmap := init_map process defaultKeyboardActions w n Hone).
  fold m in Hmap.
  split; [|split; [|split; [|split]]].
  - split.
    + subst n. unfold keyboardOptionName. rewrite Hu. reflexivity.
    + apply toUpperCase_shape in Hu. exact Hu.
  - unfold m'. rewrite Hmap. destruct (m !! n); [eauto|].
    destruct (lastDefault_elem _ _ _ Hin Hname) as [x ->]. simpl. eauto.
  - intros v Hv. unfold m'. rewrite Hmap, Hv. reflexivity.
  - intros Hm Hnd. unfold m'. rewrite Hmap, Hm.
    unfold allDefaultOptions. rewrite lastDefault_app.
    rewrite (lastDefault_NoDup n _ (keyboardDescriptor ka) Hnd Hd Hname).
    reflexivity.
  - intros d Hd0. apply getKeyboardDefaultOptions_elem in Hd0 as (ka' & Hin' & Ht & ->).
    split; [reflexivity|]. exists ka'. auto.
Qed.

Lemma setOption_only_adds name value w :
  let w' := execM (setOption name value) w in
  (exists added, names (options (becca w')) = (names (options (becca w)) ++ added)%list)
  /\ (exists added, names (sql_options w') = (names (sql_options w) ++ added)%list)
  /\ (exists added, List.map BOption.isSynced (options (becca w'))
                    = (List.map BOption.isSynced (options (becca w)) ++ added)%list).
Proof.
  intros w'. subst w'. unfold execM.
  destruct (lookupByName name (options (becca w))) as [[i o]|] eqn:H.
  - rewrite (setOption_update _ _ _ _ _ H).
    pose proof (lookupByName_Some _ _ _ _ H) as (_ & Hi & Hn).
    cbn [snd becca options sql_options].
    split; [|split].
    + exists []. rewrite app_nil_r. apply (names_insert _ i o); [exact Hi|].
      simpl. congruence.
    + unfold sql_write. cbn [BOption.name].
      destruct (lastIndexOf name (sql_options w)) as [j|] eqn:Hj.
      * destruct (lastIndexOf_Some _ _ _ Hj) as (oj & Hoj & Hnj).
        exists []. rewrite app_nil_r. apply (names_insert _ j oj); [exact Hoj|].
        simpl. congruence.
      * exists [name]. unfold names. rewrite List.map_app. reflexivity.
    + exists []. rewrite app_nil_r.
      change (List.map BOption.isSynced) with (fmap (M:=list) BOption.isSynced).
      rewrite list_fmap_insert. apply list_insert_id.
      rewrite list_lookup_fmap, Hi. reflexivity.
  - rewrite (setOption_create _ _ _ H).
    unfold createOption, BOption_new_save. cbn [snd becca options sql_options].
    split; [|split].
    + exists [name]. unfold names. rewrite List.map_app. reflexivity.
    + exists [name]. unfold names. rewrite List.map_app. reflexivity.
    + exists [false]. rewrite List.map_app. reflexivity.
Qed.

(** X8: startup initialization only adds.  The names of the entities in
    the registry and of the rows in the table before a run are an initial
    segment of the names after it, so no option is deleted or renamed; the
    sync flags of the entities that existed are unchanged; and every value
    in the option map other than [openNoteContexts] is kept. *)
Theorem initStartupOptions_only_adds w :
  let w' := execM (initStartupOptions process defaultKeyboardActions) w in
  (exists added, names (options (becca w')) = (names (options (becca w)) ++ added)%list)
  /\ (exists added, names (sql_options w') = (names (sql_options w) ++ added)%list)
  /\ (exists added, List.map BOption.isSynced (options (becca w'))
                    = (List.map BOption.isSynced (options (becca w)) ++ added)%list)
  /\ (forall n v, n <> "openNoteContexts" ->
                  optionMapOf (options (becca w)) !! n = Some v ->
                  optionMapOf (options (becca w')) !! n = Some v).
Proof.
  intros w'. subst w'.
  split; [|split; [|split]];
    try (intros n v Hne Hv; rewrite init_map by exact Hne; rewrite Hv; reflexivity);
    rewrite (init_world process defaultKeyboardActions w); cbv zeta;
    set (tbl := allDefaultOptions process defaultKeyboardActions);
    set (es := newEntities (utcNow w) (optionMapOf (options (becca w))) tbl);
    (assert (Hwa : execM (initDefaults tbl) w = addEntities es w)
       by (unfold execM; rewrite initDefaults_run; reflexivity));
    rewrite Hwa; clearbody es; clear Hwa;
    destruct (setOption_only_adds "openNoteContexts" (openNoteContextsOverride process)
                (addEntities es w)) as ([a1 H1] & [a2 H2] & [a3 H3]);
    destruct (overrideActive process).
  - exists (names es ++ a1)%list. rewrite H1. unfold addEntities, names; simpl.
    rewrite List.map_app, app_assoc. reflexivity.
  - exists (names es). unfold addEntities, names; simpl. apply List.map_app.
  - exists (names es ++ a2)%list. rewrite H2. unfold addEntities, names; simpl.
    rewrite List.map_app, app_assoc. reflexivity.
  - exists (names es). unfold addEntities, names; simpl. apply List.map_app.
  - exists (List.map BOption.isSynced es ++ a3)%list. rewrite H3.
    unfold addEntities; simpl. rewrite List.map_app, app_assoc. reflexivity.
  - exists (List.map BOption.isSynced es). unfold addEntities; simpl. apply List.map_app.
Qed.

(** X9: one call of [createOption] per absent descriptor.  For every table
    and every name, a pass adds as many options of that name as the table
    has descriptors of that name when the name is absent from the starting
    map, and none when it is present: presence is tested on the snapshot,
    so a name listed twice and absent is created twice in the same pass. *)
Theorem initDefaults_creates_per_descriptor (tbl : list DefaultOption.t) w (n : string) :
  countName n (options (becca (execM (initDefaults tbl) w)))
  = countName n (options (becca w))
    + (if decide (is_Some (optionMapOf (options (becca w)) !! n)) then 0
       else countDefault n tbl).
Proof.
  rewrite initDefaults_options, countName_app, newEntities_count. reflexivity.
Qed.

(** X10: every option created by defaulting is logged.  A pass appends to
    the log one line per created option, in creation order, giving its
    name and value between double quotes; the same options are added to
    the table; and a pass over a store in which every name of the table is
    present logs nothing and changes nothing. *)
Theorem initDefaults_logs_created (tbl : list DefaultOption.t) w :
  let w' := execM (initDefaults tbl) w in
  (exists created,
     options (becca w') = (options (becca w) ++ created)%list
     /\ sql_options w' = (sql_options w ++ created)%list
     /\ log w' = (log w ++ List.map createdLine created)%list
     /\ length created <= length tbl)
  /\ ((forall d, d ∈ tbl ->
                 is_Some (optionMapOf (options (becca w)) !! DefaultOption.name d)) ->
      w' = w).
Proof.
  intros w'. subst w'. unfold execM. rewrite initDefaults_run. simpl. split.
  - exists (newEntities (utcNow w) (optionMapOf (options (becca w))) tbl).
    repeat split.
    generalize (utcNow w). induction tbl as [|d tbl IH]; intros t; simpl; [lia|].
    case_decide; simpl; [specialize (IH t)|specialize (IH (S t))]; lia.
  - intros H. rewrite newEntities_none by exact H. apply addEntities_nil.
Qed.

End KeyboardDefaults.

(** ** The bootstrap of a new database *)

Section Bootstrap.

Variable dbVersion : string.
Variable utcNowDateTime : nat -> string.
Variable initialized : bool.
Variable opts : NotSyncedOpts.

Implicit Types (w : World).

Let bootstrap : M unit := initNotSyncedOptions dbVersion utcNowDateTime initialized opts.

(** The entities one call creates, from clock value [t] on. *)
Let created (t : nat) : list BOption.t :=
  [BOption.mk "openNoteContexts"
     (JSON_stringify (JArray [JObject [("notePath", JString "root");
                                       ("active", JBool true)]])) false t;
   BOption.mk "lastDailyBackupDate" (utcNowDateTime (1 + t)) false (1 + t);
   BOption.mk "lastWeeklyBackupDate" (utcNowDateTime (2 + t)) false (2 + t);
   BOption.mk "lastMonthlyBackupDate" (utcNowDateTime (3 + t)) false (3 + t);
   BOption.mk "dbVersion" dbVersion false (4 + t);
   BOption.mk "initialized" (if initialized then "true" else "false") false (5 + t);
   BOption.mk "lastSyncedPull" "0" false (6 + t);
   BOption.mk "lastSyncedPush" "0" false (7 + t);
   BOption.mk "theme" "next" false (8 + t);
   BOption.mk "syncServerHost" (orElse (syncServerHost opts) "") false (9 + t);
   BOption.mk "syncServerTimeout" "120000" false (10 + t);
   BOption.mk "syncProxy" (orElse (syncProxy opts) "") false (11 + t)].

Lemma createOption_withCreated {A : Type} es w name value isSynced (k : unit -> M A) :
  bind (createOption name value isSynced) k (withCreated es w)
  = k tt (withCreated (es ++ [BOption.mk name value isSynced (length es + utcNow w)]) w).
Proof.
  unfold bind, createOption, BOption_new_save, withCreated; simpl.
  rewrite <- !app_assoc, length_app. simpl.
  replace (length es + 1 + utcNow w) with (S (length es + utcNow w)) by lia.
  reflexivity.
Qed.

Lemma utcNowDateTime_withCreated {A : Type} es w (k : string -> M A) :
  bind (dateUtils_utcNowDateTime utcNowDateTime) k (withCreated es w)
  = k (utcNowDateTime (length es + utcNow w)) (withCreated es w).
Proof. reflexivity. Qed.

Lemma bind_assoc {A B C : Type} (m : M A) (k1 : A -> M B) (k2 : B -> M C) w :
  bind (bind m k1) k2 w = bind m (fun x => bind (k1 x) k2) w.
Proof.
  unfold bind. destruct (m w) as [[e|a] w1]; reflexivity.
Qed.

Lemma createOption_withCreated_last es w name value isSynced :
  createOption name value isSynced (withCreated es w)
  = (inr tt, withCreated (es ++ [BOption.mk name value isSynced (length es + utcNow w)]) w).
Proof.
  unfold createOption, BOption_new_save, withCreated; simpl.
  rewrite <- !app_assoc, length_app. simpl.
  replace (length es + 1 + utcNow w) with (S (length es + utcNow w)) by lia.
  reflexivity.
Qed.

Lemma withCreated_nil w : withCreated [] w = w.
Proof.
  destruct w as [[ld os] rows t lg]. unfold withCreated; simpl.
  rewrite !app_nil_r. reflexivity.
Qed.

Lemma bootstrap_run w :
  bootstrap w = (inr tt, withCreated (created (utcNow w)) w).
Proof.
  transitivity (bootstrap (withCreated [] w)); [rewrite withCreated_nil; reflexivity|].
  unfold bootstrap, initNotSyncedOptions.
  refine (eq_trans (createOption_withCreated _ _ _ _ _ _) _).
  do 3 (refine (eq_trans (bind_assoc _ _ _ _) _);
        refine (eq_trans (utcNowDateTime_withCreated _ _ _) _);
        refine (eq_trans (createOption_withCreated _ _ _ _ _ _) _)).
  do 7 refine (eq_trans (createOption_withCreated _ _ _ _ _ _) _).
  refine (eq_trans (createOption_withCreated_last _ _ _ _ _) _).
  reflexivity.
Qed.

Lemma bootstrap_stored w :
  stored (execM bootstrap w) = (stored w ++ created (utcNow w))%list.
Proof.
  unfold execM. rewrite bootstrap_run. unfold stored, withCreated; simpl.
  destruct (loaded (becca w)); reflexivity.
Qed.

Lemma bootstrap_getOption w n i o :
  lookupByName n (created (utcNow w)) = Some (i, o) ->
  evalM (getOption n) (execM bootstrap w) = inr (BOption.value o)
  /\ optionMapOf (options (becca (execM bootstrap w))) !! n = Some (BOption.value o).
Proof.
  intros H. split.
  - unfold evalM. rewrite getOption_run, bootstrap_stored, lookupByName_app, H.
    reflexivity.
  - unfold execM. rewrite bootstrap_run. unfold withCreated; simpl.
    rewrite optionMapOf_lookup, lookupByName_app, H. reflexivity.
Qed.

Lemma created_lookup t n :
  n ∈ notSyncedNames ->
  exists i o, lookupByName n (created t) = Some (i, o) /\ countName n (created t) = 1.
Proof.
  intros Hn. unfold notSyncedNames in Hn.
  repeat (apply elem_of_cons in Hn as [->|Hn];
          [eexists _, _; split; [vm_compute; reflexivity|reflexivity]|]).
  inversion Hn.
Qed.

(** X11: the bootstrap of a new database.  [initNotSyncedOptions] never
    throws and, on every store, creates exactly its twelve options, none of
    them synced, one more of each name whether or not one exists already.
    Afterwards the typed accessors read the bootstrap values:
    [initialized] reads as the flag passed in, [theme] as [next],
    [dbVersion] as the application's version, the sync host and proxy as
    the given ones or the empty string, [syncServerTimeout] as 120000 and
    the two sync counters as 0. *)
Theorem initNotSyncedOptions_bootstrap w :
  let w' := execM (initNotSyncedOptions dbVersion utcNowDateTime initialized opts) w in
  evalM (initNotSyncedOptions dbVersion utcNowDateTime initialized opts) w = inr tt
  /\ evalM (getOptionBool "initialized") w' = inr initialized
  /\ evalM (getOption "theme") w' = inr "next"
  /\ evalM (getOption "dbVersion") w' = inr dbVersion
  /\ evalM (getOption "syncServerHost") w' = inr (orElse (syncServerHost opts) "")
  /\ evalM (getOption "syncProxy") w' = inr (orElse (syncProxy opts) "")
  /\ evalM (getOptionInt "syncServerTimeout" None) w' = inr (number_of_Z 120000 false)
  /\ evalM (getOptionInt "lastSyncedPull" None) w' = inr (number_of_Z 0 false)
  /\ evalM (getOptionInt "lastSyncedPush" None) w' = inr (number_of_Z 0 false)
  /\ (exists added,
        options (becca w') = (options (becca w) ++ added)%list
        /\ sql_options w' = (sql_options w ++ added)%list
        /\ names added = notSyncedNames
        /\ Forall (fun o => BOption.isSynced o = false) added)
  /\ (forall n, n ∈ notSyncedNames ->
                countName n (options (becca w')) = S (countName n (options (becca w)))).
Proof.
  intros w'. fold bootstrap in w' |- *.
  assert (Hget : forall n i o, lookupByName n (created (utcNow w)) = Some (i, o) ->
                   evalM (getOption n) w' = inr (BOption.value o))
    by (intros n i o H; apply (bootstrap_getOption w n i o H)).
  assert (Hint : forall n i o, lookupByName n (created (utcNow w)) = Some (i, o) ->
                   evalM (getOptionInt n None) w'
                   = (if isNaN (parseInt (BOption.value o))
                      then inl (ParseError (BOption.value o) "integer" n)
                      else inr (parseInt (BOption.value o)))).
  { intros n i o H. unfold evalM.
    rewrite (getOptionInt_run n None w' _ (Hget n i o H)). reflexivity. }
  split; [unfold evalM; rewrite bootstrap_run; reflexivity|].
  split.
  { unfold evalM, getOptionBool, bind.
    rewrite (getOption_inr "initialized" w' _ (Hget "initialized" 5 _ eq_refl)).
    simpl. destruct initialized; reflexivity. }
  split; [exact (Hget "theme" 8 _ eq_refl)|].
  split; [exact (Hget "dbVersion" 4 _ eq_refl)|].
  split; [exact (Hget "syncServerHost" 9 _ eq_refl)|].
  split; [exact (Hget "syncProxy" 11 _ eq_refl)|].
  split; [exact (Hint "syncServerTimeout" 10 _ eq_refl)|].
  split; [exact (Hint "lastSyncedPull" 6 _ eq_refl)|].
  split; [exact (Hint "lastSyncedPush" 7 _ eq_refl)|].
  split.
  - exists (created (utcNow w)). subst w'. unfold execM. rewrite bootstrap_run. simpl.
    repeat split. repeat constructor.
  - intros n Hn. subst w'. unfold execM. rewrite bootstrap_run. simpl.
    destruct (created_lookup (utcNow w) n Hn) as (i & o & _ & Hc).
    rewrite countName_app, Hc. lia.
Qed.

(** X12: a new database gets the dark code block theme.  When
    [initNotSyncedOptions] has run and [codeBlockTheme] does not exist,
    startup initialization finds [theme] set to [next], so the derived
    default resolves to [default:stackoverflow-dark]; [theme] itself stays
    [next]. *)
Theorem bootstrap_then_startup_codeBlockTheme (process : Process)
    (defaultKeyboardActions : list KeyboardShortcut) w :
  optionMapOf (options (becca w)) !! "codeBlockTheme" = None ->
  let w1 := execM (initNotSyncedOptions dbVersion utcNowDateTime initialized opts) w in
  let w2 := execM (initStartupOptions process defaultKeyboardActions) w1 in
  optionMapOf (options (becca w2)) !! "codeBlockTheme" = Some "default:stackoverflow-dark"
  /\ optionMapOf (options (becca w2)) !! "theme" = Some "next".
Proof.
  intros Habs w1 w2. fold bootstrap in w1.
  assert (Htheme : optionMapOf (options (becca w1)) !! "theme" = Some "next")
    by (apply (bootstrap_getOption w "theme" 8 _ eq_refl)).
  assert (Hcbt : optionMapOf (options (becca w1)) !! "codeBlockTheme" = None).
  { subst w1. unfold execM. rewrite bootstrap_run. simpl.
    rewrite optionMapOf_app, Habs. reflexivity. }
  split.
  - subst w2.
    rewrite (initStartupOptions_codeBlockTheme process defaultKeyboardActions w1 Hcbt).
    unfold codeBlockThemeDefault. rewrite Htheme. reflexivity.
  - subst w2. rewrite init_map by discriminate. rewrite Htheme. reflexivity.
Qed.

End Bootstrap.

Lemma bootstrap_then_startup_codeBlockTheme_witness :
  optionMapOf
    (options (becca (execM (initStartupOptions sampleProcess sampleKeyboardActions)
                       syncSetupWorld))) !! "codeBlockTheme"
  = Some "default:stackoverflow-dark".
Proof.
  apply (proj1 (bootstrap_then_startup_codeBlockTheme
                  "228" (fun _ => "2024-01-01 00:00:00.000Z") false
                  (mkNotSyncedOpts None None) sampleProcess sampleKeyboardActions
                  (mkWorld (mkBecca false []) [] 0 []) eq_refl)).
Defined.

(** ** Further properties of [getOptionInt] *)

Section IntegerText.

Local Open Scope Z_scope.

Implicit Types (d : Decimal.uint) (w : World).

Lemma leadingDigits_string_of_uint d :
  leadingDigits 10 (NilEmpty.string_of_uint d) = uint_digits d.
Proof. induction d; simpl; try rewrite IHd; reflexivity. Qed.

Lemma of_uint_acc_fold d acc :
  Z.pos (Pos.of_uint_acc d acc)
  = fold_left (fun a x => a * 10 + x) (uint_digits d) (Z.pos acc).
Proof.
  revert acc; induction d; intros acc; simpl; try reflexivity;
    rewrite IHd; f_equal; lia.
Qed.

Lemma of_uint_fold d :
  Z.of_N (Pos.of_uint d) = mathInt 10 (uint_digits d).
Proof.
  unfold mathInt. induction d; simpl; try reflexivity; try exact IHd;
    rewrite of_uint_acc_fold; reflexivity.
Qed.

Lemma hexPrefixed_string_of_uint d :
  hexPrefixed (NilEmpty.string_of_uint d) = false.
Proof.
  unfold hexPrefixed.
  destruct d as [|d|d|d|d|d|d|d|d|d|d]; try reflexivity;
    destruct d; reflexivity.
Qed.

Lemma startsWith_string_of_uint d :
  d <> Nil -> startsWith isDecimalDigit (NilEmpty.string_of_uint d) = true.
Proof. destruct d; try reflexivity. congruence. Qed.

Lemma to_uint_not_Nil p : Pos.to_uint p <> Nil.
Proof.
  intros H. pose proof (DecimalPos.Unsigned.of_to p) as Hof.
  rewrite H in Hof. discriminate.
Qed.

Lemma parse_digits d (sign : Z) (b : bool) :
  d <> Nil ->
  match uint_digits d with
  | [] => NaN
  | digits => number_of_Z (sign * mathInt 10 digits) b
  end = number_of_Z (sign * Z.of_N (Pos.of_uint d)) b.
Proof.
  intros Hd. rewrite of_uint_fold. destruct d; [congruence|..]; reflexivity.
Qed.

Lemma string_of_uint_not_Nil d :
  d <> Nil -> NilZero.string_of_uint d = NilEmpty.string_of_uint d.
Proof. destruct d; [congruence|..]; reflexivity. Qed.

Lemma parseInt_uint (sign : string) d :
  In sign [""; "+"; "-"]%string -> d <> Nil ->
  parseInt (sign +:+ NilEmpty.string_of_uint d)
  = number_of_Z (signValue sign * Z.of_N (Pos.of_uint d)) (signValue sign =? -1).
Proof.
  intros Hs Hd.
  transitivity (parseInt ("" +:+ sign +:+ NilEmpty.string_of_uint d));
    [reflexivity|].
  rewrite (parseInt_unsigned "" sign (NilEmpty.string_of_uint d) eq_refl Hs
             (startsWith_string_of_uint d Hd)).
  rewrite splitRadix_hexPrefixed, hexPrefixed_string_of_uint,
    leadingDigits_string_of_uint.
  apply parse_digits. exact Hd.
Qed.

Lemma parseInt_toString (z : Z) :
  parseInt (Number_toString_Z z) = number_of_Z z (z <? 0).
Proof.
  unfold Number_toString_Z.
  destruct z as [|p|p]; [reflexivity| |].
  - change (Z.to_int (Z.pos p)) with (Decimal.Pos (Pos.to_uint p)).
    unfold NilZero.string_of_int.
    rewrite string_of_uint_not_Nil by apply to_uint_not_Nil.
    refine (eq_trans (parseInt_uint "" (Pos.to_uint p) (or_introl eq_refl)
                        (to_uint_not_Nil p)) _).
    rewrite DecimalPos.Unsigned.of_to. reflexivity.
  - change (Z.to_int (Z.neg p)) with (Decimal.Neg (Pos.to_uint p)).
    unfold NilZero.string_of_int.
    rewrite string_of_uint_not_Nil by apply to_uint_not_Nil.
    refine (eq_trans (parseInt_uint "-" (Pos.to_uint p)
                        (or_intror (or_intror (or_introl eq_refl)))
                        (to_uint_not_Nil p)) _).
    rewrite DecimalPos.Unsigned.of_to. reflexivity.
Qed.

(** X13: integers survive the store.  An integer below 2^53 in magnitude,
    written with [setOption] as its decimal text, is read back by
    [getOptionInt] as the same integer, for every store and name, with or
    without a default. *)
Theorem setOption_getOptionInt_roundtrip w (name : string) (defaultValue : option Number)
    (z : Z) :
  Z.abs z < 2 ^ 53 ->
  exists x,
    evalM (getOptionInt name defaultValue)
          (execM (setOption name (Number_toString_Z z)) w) = inr x
    /\ Z_of_number x = Some z.
Proof.
  intros Hz. exists (number_of_Z z (z <? 0)).
  split; [|apply number_of_Z_exact; exact Hz].
  destruct (setOption_stored name (Number_toString_Z z) w) as (i & o & H & Hv).
  assert (Hget : evalM (getOption name) (execM (setOption name (Number_toString_Z z)) w)
                 = inr (Number_toString_Z z)).
  { unfold evalM. rewrite getOption_run, H, Hv. reflexivity. }
  unfold evalM. rewrite (getOptionInt_run _ _ _ _ Hget), parseInt_toString.
  rewrite number_of_Z_not_NaN. reflexivity.
Qed.

Lemma setOption_getOptionInt_roundtrip_witness :
  exists x,
    evalM (getOptionInt "maxContentWidth" None)
          (execM (setOption "maxContentWidth" (Number_toString_Z 1200)) sampleWorld)
    = inr x
    /\ Z_of_number x = Some 1200.
Proof.
  apply (setOption_getOptionInt_roundtrip sampleWorld "maxContentWidth" None 1200).
  reflexivity.
Defined.

Lemma leadingDigits_nil_iff (R : Z) (P : ascii -> bool) (dv : ascii -> Z) s :
  (forall c, radixDigit R c = if P c then Some (dv c) else None) ->
  match leadingDigits R s with
  | [] => startsWith P s = false
  | _ :: _ => startsWith P s = true
  end.
Proof.
  intros HP. destruct s as [|c s]; simpl; [reflexivity|].
  rewrite HP. destruct (P c); reflexivity.
Qed.

Lemma isNaN_parseInt val : isNaN (parseInt val) = noDigitAhead val.
Proof.
  unfold parseInt, noDigitAhead, unsignedPart.
  destruct (splitSign (trimStart val)) as [sign u]. simpl snd.
  rewrite splitRadix_hexPrefixed.
  destruct (hexPrefixed u).
  - pose proof (leadingDigits_nil_iff 16 isHexDigit hexDigitValue
                  (String.substring 2 (String.length u - 2) u) radixDigit_hex) as H.
    destruct (leadingDigits 16 _); rewrite H; [reflexivity|].
    apply number_of_Z_not_NaN.
  - pose proof (leadingDigits_nil_iff 10 isDecimalDigit
                  (fun c => Z.of_nat (code c) - 48) u radixDigit_decimal) as H.
    destruct (leadingDigits 10 _); rewrite H; [reflexivity|].
    apply number_of_Z_not_NaN.
Qed.

Lemma trimStart_blank val : allChars isWhiteSpace val = true -> trimStart val = ""%string.
Proof.
  induction val as [|c val IH]; simpl; [reflexivity|].
  intros H. apply andb_prop in H as [-> H]. auto.
Qed.

(** X14: when [getOptionInt] fails.  For an existing option, it throws the
    ParseError (no default given) or returns the default (one given)
    exactly when no digit follows the leading white space, the optional
    sign and the [0x] prefix of the stored string; otherwise it returns a
    number that is not [NaN] and ignores the default.  In particular an
    empty or blank stored string fails. *)
Theorem getOptionInt_fails_iff w (name val : string) :
  evalM (getOption name) w = inr val ->
  (evalM (getOptionInt name None) w = inl (ParseError val "integer" name)
   <-> noDigitAhead val = true)
  /\ (noDigitAhead val = true ->
      forall dflt : Number, evalM (getOptionInt name (Some dflt)) w = inr dflt)
  /\ (noDigitAhead val = false ->
      exists x, isNaN x = false
                /\ forall defaultValue, evalM (getOptionInt name defaultValue) w = inr x)
  /\ (allChars isWhiteSpace val = true -> noDigitAhead val = true).
Proof.
  intros Hval.
  assert (Hrun := fun dflt => getOptionInt_run name dflt w val Hval).
  split; [|split; [|split]].
  - unfold evalM. rewrite Hrun, isNaN_parseInt.
    destruct (noDigitAhead val); simpl; split; try reflexivity; discriminate.
  - intros Hn d. unfold evalM. rewrite Hrun, isNaN_parseInt, Hn. reflexivity.
  - intros Hn. exists (parseInt val).
    split; [rewrite isNaN_parseInt; exact Hn|].
    intros dflt. unfold evalM. rewrite Hrun, isNaN_parseInt, Hn. reflexivity.
  - intros Hb. unfold noDigitAhead, unsignedPart.
    rewrite (trimStart_blank val Hb). reflexivity.
Qed.

Lemma getOptionInt_fails_iff_witness :
  evalM (getOptionInt "minTocHeadings" None) (storing "  ")
  = inl (ParseError "  " "integer" "minTocHeadings")
  /\ evalM (getOptionInt "minTocHeadings" None) (storing "-")
     = inl (ParseError "-" "integer" "minTocHeadings")
  /\ exists x, isNaN x = false
               /\ evalM (getOptionInt "minTocHeadings" None) (storing "0.9") = inr x.
Proof.
  split; [|split].
  - apply (proj1 (getOptionInt_fails_iff (storing "  ") "minTocHeadings" "  " eq_refl)).
    reflexivity.
  - apply (proj1 (getOptionInt_fails_iff (storing "-") "minTocHeadings" "-" eq_refl)).
    reflexivity.
  - destruct (proj1 (proj2 (proj2 (getOptionInt_fails_iff (storing "0.9")
                                     "minTocHeadings" "0.9" eq_refl))) eq_refl)
      as (x & Hx & Hget).
    exists x. split; [exact Hx|apply Hget].
Defined.

End IntegerText.

(** ** The longest parseable prefix *)

Lemma parseInt_hex_no_digit ws sign x rest :
  allChars isWhiteSpace ws = true ->
  In sign [""; "+"; "-"] ->
  In x ["x"; "X"] ->
  startsWith isHexDigit rest = false ->
  isNaN (parseInt (ws +:+ sign +:+ "0" +:+ x +:+ rest)) = true.
Proof.
  intros Hws Hs Hx Hrest.
  rewrite parseInt_unsigned; try assumption; [|reflexivity].
  assert (Hsplit : splitRadix ("0" +:+ x +:+ rest) = (16%Z, rest)).
  { simpl in Hx. destruct Hx as [<-|[<-|[]]]; reflexivity. }
  rewrite Hsplit.
  pose proof (leadingDigits_nil_iff 16 isHexDigit hexDigitValue rest radixDigit_hex) as H.
  destruct (leadingDigits 16 rest); [reflexivity|].
  rewrite Hrest in H. discriminate H.
Qed.

(** C9, as stated, fails: a stored string can start with a decimal digit,
    so that a leading integer can be extracted, and [getOptionInt] still
    fails.  On the stored value [0xg] the run of decimal digits is [0],
    and the code throws the ParseError. *)
Lemma getOptionInt_prefix_counterexample :
  ~ (forall (w : World) (name ds rest : string),
       evalM (getOption name) w = inr (ds +:+ rest) ->
       ds <> "" -> allChars isDecimalDigit ds = true ->
       startsWith isDecimalDigit rest = false ->
       evalM (getOptionInt name None) w = inr (number_of_Z (decimalValue ds) false)).
Proof.
  intros H.
  specialize (H (storing "0xg") "minTocHeadings" "0" "xg" eq_refl
                ltac:(discriminate) eq_refl eq_refl).
  vm_compute in H. discriminate H.
Qed.

(** C9, amended: [getOptionInt] succeeds on stored strings that are not
    pure numerals and returns the value of the longest parseable prefix.
    After leading white space and an optional sign, a non-empty run of
    decimal digits followed by anything that does not continue it gives
    the value of the run, whatever follows, unless the string goes on with
    [0x] or [0X]; after [0x] or [0X] the same holds for a run of
    hexadecimal digits.  Values below 2^53 in magnitude are returned
    exactly.  On [42abc] the result is 42.  Parsing fails exactly when no
    digit of the base follows the white space, the sign and the [0x]
    prefix: [0x] or [0X] followed by no hexadecimal digit fails with the
    ParseError, or gives the default, although the string starts with the
    digit 0. *)
Theorem getOptionInt_longest_prefix (w : World) (name : string)
    (defaultValue : option Number) (ws sign ds rest : string) :
  allChars isWhiteSpace ws = true ->
  In sign [""; "+"; "-"] ->
  (ds <> "" ->
   evalM (getOption name) w = inr (ws +:+ sign +:+ ds +:+ rest) ->
   allChars isDecimalDigit ds = true ->
   startsWith isDecimalDigit rest = false ->
   hexPrefixed (ds +:+ rest) = false ->
   let v := (signValue sign * decimalValue ds)%Z in
   let x := number_of_Z v (signValue sign =? -1)%Z in
   evalM (getOptionInt name defaultValue) w = inr x
   /\ ((Z.abs v < 2 ^ 53)%Z -> Z_of_number x = Some v))
  /\ (forall h,
        ds <> "" ->
        In h ["x"; "X"] ->
        evalM (getOption name) w = inr (ws +:+ sign +:+ "0" +:+ h +:+ ds +:+ rest) ->
        allChars isHexDigit ds = true ->
        startsWith isHexDigit rest = false ->
        let v := (signValue sign * hexValue ds)%Z in
        let x := number_of_Z v (signValue sign =? -1)%Z in
        evalM (getOptionInt name defaultValue) w = inr x
        /\ ((Z.abs v < 2 ^ 53)%Z -> Z_of_number x = Some v))
  /\ (forall h,
        In h ["x"; "X"] ->
        evalM (getOption name) w = inr (ws +:+ sign +:+ "0" +:+ h +:+ rest) ->
        startsWith isHexDigit rest = false ->
        evalM (getOptionInt name defaultValue) w
        = match defaultValue with
          | Some dflt => inr dflt
          | None => inl (ParseError (ws +:+ sign +:+ "0" +:+ h +:+ rest) "integer" name)
          end)
  /\ (forall val,
        evalM (getOption name) w = inr val ->
        (evalM (getOptionInt name None) w = inl (ParseError val "integer" name)
         <-> noDigitAhead val = true)
        /\ (noDigitAhead val = false ->
            evalM (getOptionInt name defaultValue) w = inr (parseInt val)
            /\ isNaN (parseInt val) = false))
  /\ (evalM (getOption name) w = inr "42abc" ->
      evalM (getOptionInt name defaultValue) w = inr (number_of_Z 42 false)
      /\ Z_of_number (number_of_Z 42 false) = Some 42%Z).
Proof.
  intros Hws Hsign. split; [|split; [|split; [|split]]].
  - intros Hne Hval Hds Hrest Hhex v x. split; [|apply number_of_Z_exact].
    unfold evalM. rewrite (getOptionInt_run _ _ _ _ Hval).
    rewrite parseInt_decimal_prefix by assumption. fold v x.
    unfold x. rewrite number_of_Z_not_NaN. reflexivity.
  - intros h Hne Hh Hval Hds Hrest v x. split; [|apply number_of_Z_exact].
    unfold evalM. rewrite (getOptionInt_run _ _ _ _ Hval).
    rewrite parseInt_hex_prefix by assumption. fold v x.
    unfold x. rewrite number_of_Z_not_NaN. reflexivity.
  - intros h Hh Hval Hrest.
    unfold evalM. rewrite (getOptionInt_run _ _ _ _ Hval).
    rewrite parseInt_hex_no_digit by assumption.
    destruct defaultValue; reflexivity.
  - intros val Hval. split.
    + unfold evalM. rewrite (getOptionInt_run _ _ _ _ Hval), isNaN_parseInt.
      destruct (noDigitAhead val); simpl; split; try reflexivity; discriminate.
    + intros Hn. unfold evalM.
      rewrite (getOptionInt_run _ _ _ _ Hval), isNaN_parseInt, Hn.
      split; reflexivity.
  - intros Hval. split; [|reflexivity].
    unfold evalM. rewrite (getOptionInt_run _ _ _ _ Hval). reflexivity.
Qed.

Lemma getOptionInt_longest_prefix_witness :
  (evalM (getOptionInt "minTocHeadings" None) (storing "42abc")
   = inr (number_of_Z 42 false)
   /\ Z_of_number (number_of_Z 42 false) = Some 42%Z)
  /\ evalM (getOptionInt "minTocHeadings" None) (storing "-0X1fz")
     = inr (number_of_Z (-31) true)
  /\ evalM (getOptionInt "minTocHeadings" None) (storing "0xg")
     = inl (ParseError "0xg" "integer" "minTocHeadings").
Proof.
  split; [|split].
  - destruct (proj1 (getOptionInt_longest_prefix (storing "42abc") "minTocHeadings"
                       None "" "" "42" "abc" eq_refl (or_introl eq_refl))
                ltac:(discriminate) eq_refl eq_refl eq_refl eq_refl) as [Hres Hexact].
    split; [exact Hres|]. apply Hexact. reflexivity.
  - apply (proj1 (proj2 (getOptionInt_longest_prefix (storing "-0X1fz")
                           "minTocHeadings" None "" "-" "1f" "z" eq_refl
                           (or_intror (or_intror (or_introl eq_refl)))))
             "X" ltac:(discriminate) (or_intror (or_introl eq_refl))
             eq_refl eq_refl eq_refl).
  - apply (proj1 (proj2 (proj2 (getOptionInt_longest_prefix (storing "0xg")
                                  "minTocHeadings" None "" "" "" "g" eq_refl
                                  (or_introl eq_refl))))
             "x" (or_introl eq_refl) eq_refl eq_refl).
Defined.

(** ** Instances of the further startup properties *)

Lemma initStartupOptions_keyboard_default_witness :
  optionMapOf
    (options (becca (execM (initStartupOptions sampleProcess sampleKeyboardActions)
                       sampleWorld))) !! "keyboardShortcutsJumpToNote"
  = Some (JSON_stringify (JArray [JString "CommandOrControl+J"]))
  /\ keyboardOptionName (String (ascii_of_nat 233) "clair")
     = "keyboardShortcuts" +:+ String (ascii_of_nat 201) "clair"
  /\ keyboardOptionName (String (ascii_of_nat 223) "ig") = "keyboardShortcutsSSig".
Proof.
  split; [|split].
  - apply (proj1 (proj2 (proj2 (proj2
             (initStartupOptions_keyboard_default sampleProcess sampleKeyboardActions
                sampleWorld (mkKeyboardShortcut (Some "jumpToNote") ["CommandOrControl+J"])
                "j" "umpToNote" "J"
                ltac:(right; right; left)
                eq_refl
                eq_refl))))).
    + vm_compute. reflexivity.
    + apply (bool_decide_unpack
               (NoDup (List.map DefaultOption.name
                         (getKeyboardDefaultOptions sampleKeyboardActions)))).
      vm_compute. exact I.
  - apply (proj1 (proj1
             (initStartupOptions_keyboard_default sampleProcess
                [mkKeyboardShortcut (Some (String (ascii_of_nat 233) "clair")) []]
                sampleWorld
                (mkKeyboardShortcut (Some (String (ascii_of_nat 233) "clair")) [])
                (ascii_of_nat 233) "clair" (String (ascii_of_nat 201) EmptyString)
                ltac:(left)
                eq_refl
                eq_refl))).
  - apply (proj1 (proj1
             (initStartupOptions_keyboard_default sampleProcess
                [mkKeyboardShortcut (Some (String (ascii_of_nat 223) "ig")) []]
                sampleWorld
                (mkKeyboardShortcut (Some (String (ascii_of_nat 223) "ig")) [])
                (ascii_of_nat 223) "ig" "SS"
                ltac:(left)
                eq_refl
                eq_refl))).
Defined.

Lemma initStartupOptions_only_adds_witness :
  optionMapOf
    (options (becca (execM (initStartupOptions safeModeProcess sampleKeyboardActions)
                       sampleWorld))) !! "theme" = Some "next".
Proof.
  apply (proj2 (proj2 (proj2
           (initStartupOptions_only_adds safeModeProcess sampleKeyboardActions sampleWorld)))).
  - discriminate.
  - vm_compute. reflexivity.
Defined.

Lemma initDefaults_logs_created_witness :
  execM (initDefaults [literalOption "theme" "light" false;
                       literalOption "minTocHeadings" "9" true]) sampleWorld
  = sampleWorld.
Proof.
  apply (proj2 (initDefaults_logs_created
                  [literalOption "theme" "light" false;
                   literalOption "minTocHeadings" "9" true] sampleWorld)).
  intros d Hd.
  apply elem_of_cons in Hd as [->|Hd]; [exists "next"; vm_compute; reflexivity|].
  apply elem_of_cons in Hd as [->|Hd]; [exists "5"; vm_compute; reflexivity|].
  inversion Hd.
Defined.

Lemma initNotSyncedOptions_bootstrap_witness :
  countName "theme"
    (options (becca (execM (initNotSyncedOptions "228" (fun _ => "2024-01-01 00:00:00.000Z")
                              true (mkNotSyncedOpts (Some "https://sync.example") None))
                       sampleWorld)))
  = S (countName "theme" (options (becca sampleWorld))).
Proof.
  apply (proj2 (proj2 (proj2 (proj2 (proj2 (proj2 (proj2 (proj2 (proj2 (proj2
           (initNotSyncedOptions_bootstrap "228" (fun _ => "2024-01-01 00:00:00.000Z")
              true (mkNotSyncedOpts (Some "https://sync.example") None)
              sampleWorld))))))))))).
  unfold notSyncedNames. do 8 right. left.
Defined.

(** ** Properties of [getIconUsage] *)

Section WhiteSpace.

Lemma trimStart_not_startsWith s : startsWith isWhiteSpace (trimStart s) = false.
Proof.
  induction s as [|c s IH]; [reflexivity|].
  simpl. destruct (isWhiteSpace c) eqn:Hc; [exact IH|exact Hc].
Qed.

Lemma endsWith_cons P c s :
  s <> EmptyString -> endsWith P (String c s) = endsWith P s.
Proof. destruct s; [congruence|reflexivity]. Qed.

Lemma endsWith_nonempty P s : endsWith P s = true -> s <> EmptyString.
Proof. destruct s; [discriminate|congruence]. Qed.

Lemma trimStart_endsWith s :
  endsWith isWhiteSpace (trimStart s) = true -> endsWith isWhiteSpace s = true.
Proof.
  induction s as [|c s IH]; [trivial|].
  cbn [trimStart]. destruct (isWhiteSpace c) eqn:Hc; [|trivial].
  intros H. specialize (IH H).
  rewrite endsWith_cons; [exact IH|]. eapply endsWith_nonempty, IH.
Qed.

Lemma trimEnd_not_endsWith s : endsWith isWhiteSpace (trimEnd s) = false.
Proof.
  induction s as [|c s IH]; [reflexivity|].
  cbn [trimEnd]. destruct (trimEnd s) as [|c' t] eqn:Ht.
  - destruct (isWhiteSpace c) eqn:Hc; [reflexivity|exact Hc].
  - rewrite endsWith_cons; [exact IH|discriminate].
Qed.

Lemma trimEnd_empty s : trimEnd s = EmptyString <-> allChars isWhiteSpace s = true.
Proof.
  induction s as [|c s IH]; [tauto|].
  cbn [trimEnd allChars]. destruct (trimEnd s) as [|c' t].
  - destruct (isWhiteSpace c); simpl; [tauto|]. split; [discriminate|].
    discriminate.
  - split; [discriminate|]. intros [_ H]%andb_true_iff. apply IH in H. discriminate.
Qed.

Lemma trimStart_empty s : trimStart s = EmptyString <-> allChars isWhiteSpace s = true.
Proof.
  induction s as [|c s IH]; [tauto|].
  cbn [trimStart allChars]. destruct (isWhiteSpace c); simpl; [exact IH|].
  split; discriminate.
Qed.

Lemma trimEnd_allChars P s : allChars P s = true -> allChars P (trimEnd s) = true.
Proof.
  induction s as [|c s IH]; [trivial|].
  cbn [trimEnd allChars]. intros [Hc Hs]%andb_true_iff. specialize (IH Hs).
  destruct (trimEnd s) as [|c' t].
  - destruct (isWhiteSpace c); [reflexivity|]. simpl. rewrite Hc. reflexivity.
  - cbn [allChars]. rewrite Hc. exact IH.
Qed.

(** A value trims to nothing exactly when it is blank. *)
Lemma trim_empty s : trim s = EmptyString <-> allChars isWhiteSpace s = true.
Proof.
  unfold trim. rewrite trimStart_empty. split.
  - intros H. apply trimEnd_empty.
    destruct (trimEnd s) as [|c t] eqn:Ht; [reflexivity|].
    exfalso. clear -Ht H.
    assert (Hne : endsWith isWhiteSpace (trimEnd s) = false) by apply trimEnd_not_endsWith.
    rewrite Ht in Hne.
    assert (Hall : forall u, u <> EmptyString -> allChars isWhiteSpace u = true ->
                             endsWith isWhiteSpace u = true).
    { induction u as [|a u IHu]; [congruence|]. intros _.
      cbn [allChars]. intros [Ha Hu]%andb_true_iff.
      destruct u as [|b u]; [exact Ha|].
      rewrite endsWith_cons by discriminate. apply IHu; [discriminate|exact Hu]. }
    rewrite Hall in Hne; [discriminate|discriminate|exact H].
  - apply trimEnd_allChars.
Qed.

Lemma trim_not_startsWith s : startsWith isWhiteSpace (trim s) = false.
Proof. apply trimStart_not_startsWith. Qed.

Lemma trim_not_endsWith s : endsWith isWhiteSpace (trim s) = false.
Proof.
  unfold trim. destruct (endsWith isWhiteSpace (trimStart (trimEnd s))) eqn:H; [|reflexivity].
  apply trimStart_endsWith in H. rewrite trimEnd_not_endsWith in H. discriminate.
Qed.

Lemma splitWhiteSpace_not_nil s : splitWhiteSpace s <> [].
Proof.
  induction s as [|c s IH]; [discriminate|].
  cbn [splitWhiteSpace]. destruct (isWhiteSpace c).
  - destruct (startsWith isWhiteSpace s); [exact IH|discriminate].
  - destruct (splitWhiteSpace s); discriminate.
Qed.

(** No piece of a split contains white space. *)
Lemma splitWhiteSpace_no_space s t :
  In t (splitWhiteSpace s) -> allChars (fun c => negb (isWhiteSpace c)) t = true.
Proof.
  revert t. induction s as [|c s IH]; intros t.
  - intros [<-|[]]. reflexivity.
  - cbn [splitWhiteSpace]. destruct (isWhiteSpace c) eqn:Hc.
    + destruct (startsWith isWhiteSpace s).
      * apply IH.
      * intros [<-|H]; [reflexivity|apply IH, H].
    + destruct (splitWhiteSpace s) as [|t0 ts] eqn:Hs.
      * intros [<-|[]]. simpl. rewrite Hc. reflexivity.
      * intros [<-|H].
        -- cbn [allChars]. rewrite Hc. apply IH. left. reflexivity.
        -- apply IH. right. exact H.
Qed.

(** The first piece is empty only for a string that is empty or starts
    with white space. *)
Lemma splitWhiteSpace_head s :
  hd EmptyString (splitWhiteSpace s) = EmptyString ->
  s = EmptyString \/ startsWith isWhiteSpace s = true.
Proof.
  destruct s as [|c s]; [left; reflexivity|].
  cbn [splitWhiteSpace startsWith]. destruct (isWhiteSpace c); [right; reflexivity|].
  destruct (splitWhiteSpace s); discriminate.
Qed.

(** A later piece is empty only for a string that ends with white space. *)
Lemma splitWhiteSpace_tail s :
  In EmptyString (tl (splitWhiteSpace s)) -> endsWith isWhiteSpace s = true.
Proof.
  induction s as [|c s IH]; [intros []|].
  cbn [splitWhiteSpace]. destruct (isWhiteSpace c) eqn:Hc.
  - destruct (startsWith isWhiteSpace s) eqn:Hs.
    + intros H. specialize (IH H).
      rewrite endsWith_cons; [exact IH|]. eapply endsWith_nonempty, IH.
    + cbn [tl]. intros H.
      destruct (splitWhiteSpace s) as [|t0 ts] eqn:Hsp; [destruct H|].
      destruct H as [->|H].
      * destruct (splitWhiteSpace_head s) as [->|Hw].
        -- rewrite Hsp. reflexivity.
        -- exact Hc.
        -- congruence.
      * assert (Hs' : endsWith isWhiteSpace s = true) by (apply IH; exact H).
        rewrite endsWith_cons; [exact Hs'|]. eapply endsWith_nonempty, Hs'.
  - destruct (splitWhiteSpace s) as [|t0 ts] eqn:Hsp; [intros []|].
    cbn [tl]. intros H.
    assert (Hs' : endsWith isWhiteSpace s = true) by (apply IH; exact H).
    rewrite endsWith_cons; [exact Hs'|]. eapply endsWith_nonempty, Hs'.
Qed.

(** The pieces of a trimmed value that is not empty are not empty. *)
Lemma splitWhiteSpace_trim_nonempty s :
  trim s <> EmptyString -> ~ In EmptyString (splitWhiteSpace (trim s)).
Proof.
  intros Hne Hin.
  destruct (splitWhiteSpace (trim s)) as [|t0 ts] eqn:Hsp; [destruct Hin|].
  destruct Hin as [->|Hin].
  - destruct (splitWhiteSpace_head (trim s)) as [H|H].
    + rewrite Hsp. reflexivity.
    + contradiction.
    + rewrite trim_not_startsWith in H. discriminate.
  - assert (H : endsWith isWhiteSpace (trim s) = true).
    { apply splitWhiteSpace_tail. rewrite Hsp. exact Hin. }
    rewrite trim_not_endsWith in H. discriminate.
Qed.

End WhiteSpace.

Section IconUsageProperties.

Variable inheritedText : string -> string.

Implicit Types (m : gmap string CountValue) (c k : string)
  (attributes : list Attribute.t).

(** How often [c] is among [classes]. *)
Local Abbreviation count c classes := (length (List.filter (String.eqb c) classes)).

Lemma bump_bumpAt m c :
  bump inheritedText m c
  = match bumpAt inheritedText c (m !! c) with
    | Some v => <[c := v]> m
    | None => m
    end.
Proof.
  unfold bump, bumpAt.
  destruct (m !! c) as [[n|[|a s]]|]; try reflexivity.
  destruct (includes objectPrototypeKeys c); [|reflexivity].
  destruct (String.eqb c "__proto__"); reflexivity.
Qed.

Lemma bumpAt_None_inv c v : bumpAt inheritedText c v = None -> v = None.
Proof.
  unfold bumpAt. destruct v as [[n|[|a s]]|]; try discriminate. reflexivity.
Qed.

Lemma bump_lookup_same m c :
  bump inheritedText m c !! c = bumpAt inheritedText c (m !! c).
Proof.
  rewrite bump_bumpAt.
  destruct (bumpAt inheritedText c (m !! c)) as [v|] eqn:Hv.
  - apply lookup_insert_eq.
  - apply bumpAt_None_inv in Hv. exact Hv.
Qed.

Lemma bump_lookup_other m k c :
  k <> c -> bump inheritedText m k !! c = m !! c.
Proof.
  intros Hkc. rewrite bump_bumpAt.
  destruct (bumpAt inheritedText k (m !! k)); [|reflexivity].
  apply lookup_insert_ne. exact Hkc.
Qed.

Lemma foldl_bump_lookup classes m c :
  foldl (bump inheritedText) m classes !! c
  = Nat.iter (count c classes) (bumpAt inheritedText c) (m !! c).
Proof.
  revert m. induction classes as [|k classes IH]; intros m; [reflexivity|].
  cbn [foldl List.filter]. rewrite IH.
  destruct (String.eqb_spec c k) as [<-|Hck].
  - cbn [length]. rewrite Nat.iter_succ_r, bump_lookup_same. reflexivity.
  - rewrite bump_lookup_other by congruence. reflexivity.
Qed.

Lemma foldl_skip_bx classes m :
  foldl (fun map clazz => if String.eqb clazz "bx" then map
                          else bump inheritedText map clazz) m classes
  = foldl (bump inheritedText) m
      (List.filter (fun clazz => negb (String.eqb clazz "bx")) classes).
Proof.
  revert m. induction classes as [|k classes IH]; intros m; [reflexivity|].
  cbn [foldl List.filter]. destruct (String.eqb k "bx"); cbn [negb foldl]; apply IH.
Qed.

Lemma countIconClasses_classes m a :
  countIconClasses inheritedText m a = foldl (bump inheritedText) m (iconClasses a).
Proof.
  unfold countIconClasses, iconClasses.
  destruct (startsWith _ _); [reflexivity|].
  destruct (Attribute.value a) as [iconClass|]; [|reflexivity].
  destruct (trim iconClass) as [|x t]; [reflexivity|].
  apply foldl_skip_bx.
Qed.

Lemma foldl_countIconClasses attributes m :
  foldl (countIconClasses inheritedText) m attributes
  = foldl (bump inheritedText) m (concat (List.map iconClasses attributes)).
Proof.
  revert m. induction attributes as [|a attributes IH]; intros m; [reflexivity|].
  cbn [foldl List.map concat]. rewrite foldl_app, IH, countIconClasses_classes.
  reflexivity.
Qed.

Lemma getIconUsage_lookup attributes c :
  getIconUsage inheritedText attributes !! c
  = Nat.iter (occurrences c attributes) (bumpAt inheritedText c) None.
Proof.
  unfold getIconUsage, occurrences.
  rewrite foldl_countIconClasses, foldl_bump_lookup, lookup_empty. reflexivity.
Qed.

Lemma iter_bumpAt_count c n :
  includes objectPrototypeKeys c = false ->
  Nat.iter (S n) (bumpAt inheritedText c) None
  = Some (Count (Z.min (Z.of_nat (S n)) (2 ^ 53))).
Proof.
  intros Hc. induction n as [|n IH].
  - unfold Nat.iter. cbn [nat_rect]. unfold bumpAt. rewrite Hc. reflexivity.
  - rewrite Nat.iter_succ, IH. cbn [bumpAt]. unfold incr.
    change (2 ^ 53)%Z with 9007199254740992%Z.
    do 2 f_equal. rewrite (Nat2Z.inj_succ (S n)).
    destruct (Z.ltb_spec (Z.min (Z.of_nat (S n)) 9007199254740992) 9007199254740992); lia.
Qed.

Lemma ones_snoc n : ones n +:+ "1" = ones (S n).
Proof.
  induction n as [|n IH]; [reflexivity|].
  change (String "1" (ones n +:+ "1") = String "1" (ones (S n))). f_equal. exact IH.
Qed.

Lemma append_append (s t u : string) : (s +:+ t) +:+ u = s +:+ (t +:+ u).
Proof.
  induction s as [|a s IH]; [reflexivity|].
  change (String a ((s +:+ t) +:+ u) = String a (s +:+ (t +:+ u))). f_equal. exact IH.
Qed.

Lemma append_ones_nonempty (s : string) n : s +:+ ones (S n) <> EmptyString.
Proof. destruct s; discriminate. Qed.

Lemma iter_bumpAt_inherited c n :
  includes objectPrototypeKeys c = true -> c <> "__proto__" ->
  Nat.iter (S n) (bumpAt inheritedText c) None
  = Some (Text (inheritedText c +:+ ones (S n))).
Proof.
  intros Hc Hp. induction n as [|n IH].
  - unfold Nat.iter. cbn [nat_rect]. unfold bumpAt. rewrite Hc.
    destruct (String.eqb_spec c "__proto__"); [contradiction|reflexivity].
  - rewrite Nat.iter_succ, IH. cbn [bumpAt].
    destruct (inheritedText c +:+ ones (S n)) as [|a s] eqn:Hs.
    + exfalso. exact (append_ones_nonempty _ _ Hs).
    + rewrite <- Hs, append_append, ones_snoc. reflexivity.
Qed.

Lemma iter_bumpAt_proto n :
  Nat.iter n (bumpAt inheritedText "__proto__") None = None.
Proof. induction n as [|n IH]; [reflexivity|]. rewrite Nat.iter_succ, IH. reflexivity. Qed.

Lemma occurrences_cons c a attributes :
  occurrences c (a :: attributes)
  = (count c (iconClasses a) + occurrences c attributes)%nat.
Proof.
  unfold occurrences. cbn [List.map concat].
  rewrite List.filter_app, length_app. reflexivity.
Qed.

Lemma occurrences_Permutation c attributes attributes' :
  Permutation attributes attributes' ->
  occurrences c attributes = occurrences c attributes'.
Proof.
  induction 1 as [|a l l' _ IH|a b l|l l' l'' _ IH1 _ IH2].
  - reflexivity.
  - rewrite !occurrences_cons, IH. reflexivity.
  - rewrite !occurrences_cons. lia.
  - congruence.
Qed.

Lemma iconClasses_not_counted a : counted a = false -> iconClasses a = [].
Proof.
  unfold counted, iconClasses.
  destruct (startsWith _ _); [reflexivity|]. cbn [negb andb].
  destruct (Attribute.value a) as [iconClass|]; [|reflexivity].
  intros H. apply negb_false_iff, trim_empty in H. rewrite H. reflexivity.
Qed.

Lemma occurrences_counted c attributes :
  occurrences c (List.filter counted attributes) = occurrences c attributes.
Proof.
  induction attributes as [|a attributes IH]; [reflexivity|].
  cbn [List.filter]. destruct (counted a) eqn:Ha.
  - rewrite !occurrences_cons, IH. reflexivity.
  - rewrite occurrences_cons, IH, (iconClasses_not_counted a Ha). reflexivity.
Qed.

Lemma occurrences_pos c attributes :
  occurrences c attributes <> O ->
  exists a, In a attributes /\ In c (iconClasses a).
Proof.
  induction attributes as [|a attributes IH]; [intros []; reflexivity|].
  rewrite occurrences_cons. intros H.
  destruct (count c (iconClasses a)) eqn:Hn.
  - destruct (IH H) as (a' & Ha' & Hc). exists a'. split; [right; exact Ha'|exact Hc].
  - exists a. split; [left; reflexivity|].
    destruct (List.filter (String.eqb c) (iconClasses a)) as [|x xs] eqn:Hf; [discriminate|].
    assert (Hx : In x (List.filter (String.eqb c) (iconClasses a))) by (rewrite Hf; left; reflexivity).
    apply List.filter_In in Hx. destruct Hx as [Hx Heq].
    apply String.eqb_eq in Heq. subst x. exact Hx.
Qed.

(** X15: [getIconUsage] counts occurrences.  For every class name that is
    not a member of [Object.prototype], the result has no property of that
    name when no counted attribute lists it, and otherwise holds the number
    of times it is listed (a class listed twice in one value counts twice),
    exact up to 2^53. *)
Theorem getIconUsage_counts attributes c :
  includes objectPrototypeKeys c = false ->
  getIconUsage inheritedText attributes !! c
  = match occurrences c attributes with
    | O => None
    | S n => Some (Count (Z.min (Z.of_nat (S n)) (2 ^ 53)))
    end.
Proof.
  intros Hc. rewrite getIconUsage_lookup.
  destruct (occurrences c attributes) as [|n]; [reflexivity|].
  apply iter_bumpAt_count, Hc.
Qed.

(** X16: every property of the result of [getIconUsage] is a class of a
    user's note: it is not [bx], not empty, contains no white space, is
    not [__proto__], and is a piece of the trimmed value of an attribute
    whose note id does not start with an underscore. *)
Theorem getIconUsage_keys attributes c :
  is_Some (getIconUsage inheritedText attributes !! c) ->
  c <> "bx" /\ c <> EmptyString /\ c <> "__proto__"
  /\ allChars (fun x => negb (isWhiteSpace x)) c = true
  /\ exists a iconClass,
       In a attributes
       /\ startsWith (Ascii.eqb "_") (Attribute.noteId a) = false
       /\ Attribute.value a = Some iconClass
       /\ In c (splitWhiteSpace (trim iconClass)).
Proof.
  rewrite getIconUsage_lookup. intros Hsome.
  assert (Hp : c <> "__proto__").
  { intros ->. rewrite iter_bumpAt_proto in Hsome. destruct Hsome; discriminate. }
  assert (Hocc : occurrences c attributes <> O).
  { intros H0. rewrite H0 in Hsome. destruct Hsome; discriminate. }
  destruct (occurrences_pos _ _ Hocc) as (a & Ha & Hc).
  unfold iconClasses in Hc.
  destruct (startsWith (Ascii.eqb "_") (Attribute.noteId a)) eqn:Hsys; [destruct Hc|].
  destruct (Attribute.value a) as [iconClass|] eqn:Hv; [|destruct Hc].
  destruct (trim iconClass) as [|x t] eqn:Ht; [destruct Hc|].
  apply List.filter_In in Hc. destruct Hc as [Hin Hbx].
  rewrite <- Ht in Hin.
  repeat split.
  - intros ->. discriminate.
  - intros ->. apply (splitWhiteSpace_trim_nonempty iconClass); [congruence|exact Hin].
  - exact Hp.
  - eapply splitWhiteSpace_no_space, Hin.
  - exists a, iconClass. auto.
Qed.

(** X17: the result of [getIconUsage] does not depend on the order in
    which the attributes are found. *)
Theorem getIconUsage_permutation attributes attributes' :
  Permutation attributes attributes' ->
  getIconUsage inheritedText attributes = getIconUsage inheritedText attributes'.
Proof.
  intros Hp. apply map_eq. intros c.
  rewrite !getIconUsage_lookup, (occurrences_Permutation c _ _ Hp). reflexivity.
Qed.

(** X18: attributes of system notes (note id starting with an underscore),
    attributes without a value and attributes with a blank value
    contribute nothing: removing them leaves the result of [getIconUsage]
    unchanged, and with only such attributes the result is empty. *)
Theorem getIconUsage_ignores_uncounted attributes :
  getIconUsage inheritedText (List.filter counted attributes)
  = getIconUsage inheritedText attributes
  /\ (forallb (fun a => negb (counted a)) attributes = true ->
      getIconUsage inheritedText attributes = ∅).
Proof.
  assert (H1 : getIconUsage inheritedText (List.filter counted attributes)
               = getIconUsage inheritedText attributes).
  { apply map_eq. intros c.
    rewrite !getIconUsage_lookup, occurrences_counted. reflexivity. }
  split; [exact H1|].
  intros Hall. rewrite <- H1.
  replace (List.filter counted attributes) with (@nil Attribute.t); [reflexivity|].
  clear H1. induction attributes as [|a attributes IH]; [reflexivity|].
  cbn [forallb] in Hall. apply andb_true_iff in Hall. destruct Hall as [Ha Hall].
  cbn [List.filter]. apply negb_true_iff in Ha. rewrite Ha. apply IH, Hall.
Qed.

(** X19: a class named like a member of [Object.prototype] is not counted
    as a number.  For such a name other than [__proto__] that occurs at
    least once, the property holds the text of the inherited member
    followed by one character 1 per occurrence; for [__proto__] the result
    never has a property. *)
Theorem getIconUsage_inherited_names attributes c n :
  includes objectPrototypeKeys c = true ->
  occurrences c attributes = S n ->
  getIconUsage inheritedText attributes !! c
  = if String.eqb c "__proto__" then None
    else Some (Text (inheritedText c +:+ ones (S n))).
Proof.
  intros Hc Hn. rewrite getIconUsage_lookup, Hn.
  destruct (String.eqb_spec c "__proto__") as [->|Hp].
  - apply iter_bumpAt_proto.
  - apply iter_bumpAt_inherited; assumption.
Qed.

End IconUsageProperties.

(** ** Instances of the properties of [getIconUsage] *)

Lemma getIconUsage_counts_witness :
  includes objectPrototypeKeys "bx-home" = false
  /\ getIconUsage sampleInheritedText sampleAttributes !! "bx-home" = Some (Count 2).
Proof.
  split; [reflexivity|].
  refine (eq_trans
            (getIconUsage_counts sampleInheritedText sampleAttributes "bx-home" eq_refl) _).
  reflexivity.
Defined.

Lemma getIconUsage_keys_witness :
  exists a iconClass,
    In a sampleAttributes
    /\ startsWith (Ascii.eqb "_") (Attribute.noteId a) = false
    /\ Attribute.value a = Some iconClass
    /\ In "bxs-star" (splitWhiteSpace (trim iconClass)).
Proof.
  apply (getIconUsage_keys sampleInheritedText sampleAttributes "bxs-star").
  exists (Count 1). rewrite getIconUsage_lookup. reflexivity.
Defined.

Lemma getIconUsage_permutation_witness :
  getIconUsage sampleInheritedText
    [Attribute.mk (Some "bx bx-home") "n1"; Attribute.mk (Some "bx-lock bx") "n2"]
  = getIconUsage sampleInheritedText
      [Attribute.mk (Some "bx-lock bx") "n2"; Attribute.mk (Some "bx bx-home") "n1"].
Proof. apply getIconUsage_permutation. apply perm_swap. Defined.

Lemma getIconUsage_ignores_uncounted_witness :
  getIconUsage sampleInheritedText
    [Attribute.mk (Some "bx bx-lock") "_hidden"; Attribute.mk None "n3";
     Attribute.mk (Some "   ") "n4"]
  = ∅.
Proof.
  apply (proj2 (getIconUsage_ignores_uncounted sampleInheritedText _)). reflexivity.
Defined.

Lemma getIconUsage_inherited_names_witness :
  getIconUsage sampleInheritedText sampleAttributes !! "constructor"
  = Some (Text "function constructor() { [native code] }1").
Proof.
  refine (eq_trans
            (getIconUsage_inherited_names sampleInheritedText sampleAttributes
               "constructor" 0 eq_refl eq_refl) _).
  reflexivity.
Defined.
